(** * Chord transposition of [main.py]: a shallow embedding and its properties

    The functions [normalize_chord], [transpose_chord] and [transpose_song]
    of [main.py] are embedded as Rocq functions over Python strings seen as
    lists of Unicode code points.  The two regular expressions of the source
    are kept as data and run by a small backtracking matcher that lists the
    ways a pattern can match in the priority order of Python's [re] module;
    exceptions are values of a [result] type. *)

From Stdlib Require Import String Ascii List NArith ZArith Lia Bool.
Import ListNotations.

(** ** Python strings *)

(** A [str] is a sequence of code points. *)
Abbreviation char := N.
Abbreviation str := (list char).

(** [lit] reads an ASCII literal as a [str]. *)
Definition lit (s : string) : str := map N_of_ascii (list_ascii_of_string s).
Arguments lit s%_string.

Definition char_eqb (a b : char) : bool := N.eqb a b.

Fixpoint str_eqb (a b : str) : bool :=
  match a, b with
  | [], [] => true
  | x :: a', y :: b' => char_eqb x y && str_eqb a' b'
  | _, _ => false
  end.

(** [x in l] for a list of strings. *)
Definition str_in (x : str) (l : list str) : bool := existsb (str_eqb x) l.

(** [c in s] for a one-character needle. *)
Definition char_in (c : char) (s : str) : bool := existsb (char_eqb c) s.

Fixpoint starts_with (p s : str) : bool :=
  match p, s with
  | [], _ => true
  | x :: p', y :: s' => char_eqb x y && starts_with p' s'
  | _ :: _, [] => false
  end.

(** [str.isspace] on one code point. *)
Definition isspace (c : char) : bool :=
  ((9 <=? c) && (c <=? 13) || (28 <=? c) && (c <=? 32) || (c =? 133) || (c =? 160)
   || (c =? 5760) || (8192 <=? c) && (c <=? 8202) || (c =? 8232) || (c =? 8233)
   || (c =? 8239) || (c =? 8287) || (c =? 12288))%N.

Fixpoint lstrip (s : str) : str :=
  match s with
  | c :: s' => if isspace c then lstrip s' else s
  | [] => []
  end.

(** [s.strip()] *)
Definition strip (s : str) : str := rev (lstrip (rev (lstrip s))).

(** [s.replace(old, new)] for a non-empty [old]: occurrences are replaced from
    left to right without overlap; [skip] counts the characters of an
    occurrence still to be dropped. *)
Fixpoint replace_from (old new : str) (skip : nat) (s : str) : str :=
  match s with
  | [] => []
  | c :: s' =>
      match skip with
      | S k => replace_from old new k s'
      | O =>
          if starts_with old s
          then new ++ replace_from old new (length old - 1) s'
          else c :: replace_from old new 0 s'
      end
  end.

(** [s.replace(old, new)]; with an empty [old] Python puts [new] around every
    character. *)
Definition str_replace (s old new : str) : str :=
  match old with
  | [] => new ++ flat_map (fun c => c :: new) s
  | _ :: _ => replace_from old new 0 s
  end.

(** ** Exceptions *)

Inductive exn : Type :=
| ValueError (msg : str)
| IndexError.

Inductive result (A : Type) : Type :=
| Ok (a : A)
| Raise (e : exn).
Arguments Ok {A} a.
Arguments Raise {A} e.

Definition bind {A B : Type} (m : result A) (f : A -> result B) : result B :=
  match m with
  | Ok a => f a
  | Raise e => Raise e
  end.

Notation "x <- m ;; k" := (bind m (fun x => k))
  (at level 61, m at next level, right associativity).

(** [l.index(x)]: the first position of [x], [ValueError] when absent. *)
Fixpoint index_from (l : list str) (x : str) (i : Z) : result Z :=
  match l with
  | [] => Raise (ValueError (lit "x not in list"))
  | y :: l' => if str_eqb y x then Ok i else index_from l' x (i + 1)
  end.

Definition list_index (l : list str) (x : str) : result Z := index_from l x 0.

(** [l[i]]: a negative [i] counts from the end, [IndexError] out of range. *)
Definition list_get (l : list str) (i : Z) : result str :=
  let n := Z.of_nat (length l) in
  let j := (if i <? 0 then i + n else i)%Z in
  if ((j <? 0) || (n <=? j))%Z then Raise IndexError
  else match nth_error l (Z.to_nat j) with
       | Some x => Ok x
       | None => Raise IndexError
       end.

(** [mapM] over [result], left to right. *)
Fixpoint collect {A B : Type} (f : A -> result B) (l : list A) : result (list B) :=
  match l with
  | [] => Ok []
  | a :: l' => b <- f a ;; bs <- collect f l' ;; Ok (b :: bs)
  end.

(** ** The pitch tables *)

Definition NOTES : list str :=
  [lit "C"; lit "C#"; lit "D"; lit "D#"; lit "E"; lit "F";
   lit "F#"; lit "G"; lit "G#"; lit "A"; lit "A#"; lit "B"].

Definition NOTES_FLAT : list str :=
  [lit "C"; lit "Db"; lit "D"; lit "Eb"; lit "E"; lit "F";
   lit "Gb"; lit "G"; lit "Ab"; lit "A"; lit "Bb"; lit "B"].

(** The [replacements] dictionary, in its insertion order. *)
Definition replacements : list (str * str) :=
  [(lit "Db", lit "C#"); (lit "Eb", lit "D#"); (lit "Gb", lit "F#");
   (lit "Ab", lit "G#"); (lit "Bb", lit "A#")].

Definition normalize_chord (chord : str) : str :=
  fold_left (fun chord fs => str_replace chord (fst fs) (snd fs)) replacements chord.

(** ** Regular expressions *)

Inductive regex : Type :=
| Bos                          (* ^ *)
| Bnd                          (* \b *)
| Cls (p : char -> bool)       (* a character class *)
| Str (l : str)                (* a literal string *)
| Seq (a b : regex)
| Alt (a b : regex)            (* a|b, [a] tried first *)
| Opt (a : regex)              (* a?, greedy *)
| Star (a : regex).            (* a*, greedy *)

(** A position of the matcher: the character before it, if any, and the
    input still to read. *)
Abbreviation pos := (option char * str)%type.

Fixpoint last_char (prev : option char) (u : str) : option char :=
  match u with
  | [] => prev
  | c :: u' => last_char (Some c) u'
  end.

(** The greedy loop of [a*]: the iterations of the body [step] that consume
    input come first, the exit of the loop last.  [n] bounds the number of
    iterations by the length of the input. *)
Fixpoint star_loop (step : option char -> str -> list pos) (n : nat)
    (prev : option char) (s : str) : list pos :=
  match n with
  | O => [(prev, s)]
  | S n' =>
      flat_map (fun q => if (length (snd q) <? length s)%nat
                         then star_loop step n' (fst q) (snd q) else [])
               (step prev s)
      ++ [(prev, s)]
  end.

Definition in_range (lo hi c : char) : bool := ((lo <=? c) && (c <=? hi))%N.
Arguments in_range (lo hi c)%_N.

Definition is_digit : char -> bool := in_range 48 57.      (* [0-9] *)
Definition is_AG : char -> bool := in_range 65 71.          (* [A-G] *)
Definition is_sharp_b (c : char) : bool := ((c =? 35) || (c =? 98))%N. (* [#b] *)

(** [\w] on ASCII. *)
Definition ascii_word (c : char) : bool :=
  is_digit c || in_range 65 90 c || in_range 97 122 c || (c =? 95)%N.

(** ** The world of the HTTP handlers *)

(** The result of a call into a library: a value, or an exception, of which
    the handler looks at whether it is a [ValueError] and at its text. *)
Inductive outcome (A : Type) : Type :=
| Done (a : A)
| Failed (value_error : bool) (text : str).
Arguments Done {A} a.
Arguments Failed {A} value_error text.

(** What the handler uses of the world outside, over a database [db]:
    - [jwt_decode token]: [jwt.decode(token, SECRET_KEY, algorithms=[ALGORITHM])],
      [None] when it raises, otherwise the entry of the payload at ['email'],
      if any;
    - [find_user]: the connection, [SELECT id FROM users WHERE email = ?] and
      [fetchone], giving the first column of the row;
    - [add_song]: [INSERT INTO songs ... VALUES (?, ?, ?, ?, ?, ?, ?)] with its
      seven values, and [commit];
    - [close_db]: [conn.close()]. *)
Record backend (db : Type) : Type := {
  jwt_decode : str -> option (option str);
  find_user : db -> str -> outcome (option Z) * db;
  add_song : db -> Z * str * str * str * str * str * str -> outcome unit * db;
  close_db : db -> outcome unit * db
}.
Arguments jwt_decode {db} b token.
Arguments find_user {db} b w email.
Arguments add_song {db} b w values.
Arguments close_db {db} b w.

(** [verify_token]: the email of the payload, [None] on any exception. *)
Definition verify_token {db : Type} (b : backend db) (token : str) : option str :=
  match jwt_decode b token with
  | Some (Some email) => Some email
  | _ => None
  end.

Record TransposeRequest : Type := {
  song_text : str;
  original_key : str;
  target_key : str;
  song_title : option str;
  artist : option str;
  token : option str
}.

Inductive json : Type :=
| JBool (b : bool)
| JStr (s : str).

(** What a handler does: it returns a dictionary or raises [HTTPException]. *)
Inductive http_result : Type :=
| Returned (body : list (str * json))
| HTTPException (status_code : Z) (detail : str).

(** The truth value of an [Optional[str]]. *)
Definition truthy (o : option str) : bool :=
  match o with
  | Some (_ :: _) => true
  | _ => false
  end.

(** [o or default] *)
Definition or_default (o : option str) (default : str) : str :=
  match o with
  | Some (c :: s) => c :: s
  | _ => default
  end.

(** [str(e)] *)
Definition exn_text (e : exn) : str :=
  match e with
  | ValueError msg => msg
  | IndexError => lit "list index out of range"
  end.

(** The two [except] clauses of the handler. *)
Definition transpose_error (value_error : bool) (text : str) : http_result :=
  if value_error then HTTPException 400 text
  else HTTPException 500 (lit "Error al transponer: " ++ text).

Definition transpose_body (request : TransposeRequest) (transposed : str)
  : list (str * json) :=
  [(lit "success", JBool true);
   (lit "original", JStr (song_text request));
   (lit "transposed", JStr transposed);
   (lit "original_key", JStr (original_key request));
   (lit "target_key", JStr (target_key request))].

(** The block of the handler that stores the song for the user of the
    token: an exception leaves it at once, [conn.close()] comes last. *)
Definition store_song {db : Type} (b : backend db) (request : TransposeRequest)
    (transposed email : str) (w : db) : outcome unit * db :=
  let (user, w1) := find_user b w email in
  match user with
  | Failed ve text => (Failed ve text, w1)
  | Done user =>
      let (saved, w2) :=
        match user with
        | Some user_id =>
            add_song b w1
              (user_id,
               or_default (song_title request) (lit "Sin t" ++ [237%N] ++ lit "tulo"),
               or_default (artist request) (lit "Desconocido"),
               song_text request, transposed,
               original_key request, target_key request)
        | None => (Done tt, w1)
        end in
      match saved with
      | Failed ve text => (Failed ve text, w2)
      | Done _ => close_db b w2
      end
  end.

(** A backend without accounts, over a database with nothing in it. *)
Definition no_accounts : backend unit :=
  {| jwt_decode := fun _ => None;
     find_user := fun w _ => (Done None, w);
     add_song := fun w _ => (Done tt, w);
     close_db := fun w => (Done tt, w) |}.

(** [str.isalnum] on the Latin-1 Supplement block and false beyond it: a table
    used to run the functions on concrete texts. *)
Definition latin1_alnum (c : char) : bool :=
  ((c =? 170) || (c =? 178) || (c =? 179) || (c =? 181) || (c =? 185) || (c =? 186)
   || (188 <=? c) && (c <=? 190) || (192 <=? c) && (c <=? 214)
   || (216 <=? c) && (c <=? 246) || (248 <=? c) && (c <=? 255))%N.

Section Transposition.

(** [str.isalnum] beyond ASCII, a table of the Python runtime. *)
Variable unicode_alnum : char -> bool.

(** [\w] of a [str] pattern. *)
Definition is_word (c : char) : bool :=
  if (c <? 128)%N then ascii_word c else unicode_alnum c.

Definition word_before (prev : option char) : bool :=
  match prev with
  | Some c => is_word c
  | None => false
  end.

Definition word_after (s : str) : bool :=
  match s with
  | c :: _ => is_word c
  | [] => false
  end.

Definition at_boundary (prev : option char) (s : str) : bool :=
  xorb (word_before prev) (word_after s).

(** [ends r prev s]: the positions at which a match of [r] begun at
    [(prev, s)] can end, in the order in which the backtracking matcher of
    [re] tries them. *)
Fixpoint ends (r : regex) (prev : option char) (s : str) : list pos :=
  match r with
  | Bos => match prev with None => [(prev, s)] | Some _ => [] end
  | Bnd => if at_boundary prev s then [(prev, s)] else []
  | Cls p =>
      match s with
      | c :: s' => if p c then [(Some c, s')] else []
      | [] => []
      end
  | Str l =>
      if starts_with l s then [(last_char prev l, skipn (length l) s)] else []
  | Seq a b => flat_map (fun q => ends b (fst q) (snd q)) (ends a prev s)
  | Alt a b => ends a prev s ++ ends b prev s
  | Opt a => ends a prev s ++ [(prev, s)]
  | Star a => star_loop (ends a) (length s) prev s
  end.

(** The match found at a position: the number of characters of the first way
    to match. *)
Definition match_at (r : regex) (prev : option char) (s : str) : option nat :=
  match ends r prev s with
  | q :: _ => Some (length s - length (snd q))%nat
  | [] => None
  end.

(** [re.match(r, s)], giving the matched text. *)
Definition re_match (r : regex) (s : str) : option str :=
  match match_at r None s with
  | Some n => Some (firstn n s)
  | None => None
  end.

(** The spans [re.sub] cuts a text into: the matches, and the characters
    between them. *)
Inductive span : Type :=
| Literal (c : char)
| Chord (tok : str).

(** The scan of [re.sub]: at each character outside a match the pattern is
    tried; after a match the scan resumes at its end.  [skip] counts the
    characters of the current match still to pass.  The pattern used here
    matches no empty string. *)
Fixpoint scan (r : regex) (skip : nat) (prev : option char) (s : str) : list span :=
  match s with
  | [] => []
  | c :: s' =>
      match skip with
      | S k => scan r k (Some c) s'
      | O =>
          match match_at r prev s with
          | Some (S k) => Chord (firstn (S k) s) :: scan r k (Some c) s'
          | _ => Literal c :: scan r 0 (Some c) s'
          end
      end
  end.

(** [re.sub(r, repl, text)] with a function [repl] of the matched text. *)
Definition re_sub (r : regex) (repl : str -> result str) (text : str) : result str :=
  parts <- collect (fun sp => match sp with
                              | Literal c => Ok [c]
                              | Chord tok => repl tok
                              end) (scan r 0 None text) ;;
  Ok (concat parts).

(** ** The transposition functions *)

(** [^([A-G][#b]?)] *)
Definition root_pattern : regex :=
  Seq Bos (Seq (Cls is_AG) (Opt (Cls is_sharp_b))).

Definition transpose_chord (chord : str) (semitones : Z) : result str :=
  if match chord with [] => true | _ => false end || str_eqb (strip chord) []
  then Ok chord
  else
    let chord := normalize_chord chord in
    match re_match root_pattern chord with
    | None => Ok chord
    | Some root =>
        let suffix := skipn (length root) chord in
        let root := if char_in 98%N root then normalize_chord root else root in
        if negb (str_in root NOTES) then Ok chord
        else
          old_index <- list_index NOTES root ;;
          let new_index := ((old_index + semitones) mod 12)%Z in
          new_root <- list_get NOTES new_index ;;
          Ok (new_root ++ suffix)
    end.

(** The alternatives of the quality group, in the order of the source:
    [m|maj|min|dim|aug|sus|add|[0-9]]. *)
Definition quality : regex :=
  Alt (Str (lit "m")) (Alt (Str (lit "maj")) (Alt (Str (lit "min"))
  (Alt (Str (lit "dim")) (Alt (Str (lit "aug")) (Alt (Str (lit "sus"))
  (Alt (Str (lit "add")) (Cls is_digit))))))).

(** The chord pattern of [transpose_song]: a word boundary, the group
    [A-G], [#b]?, the starred quality alternatives, and a word boundary.
    Group 1 is the whole match, a boundary having no width. *)
Definition chord_pattern : regex :=
  Seq Bnd (Seq (Seq (Cls is_AG) (Seq (Opt (Cls is_sharp_b)) (Star quality))) Bnd).

(** "Tonalidad inválida" *)
Definition invalid_key_msg : str := lit "Tonalidad inv" ++ [225%N] ++ lit "lida".

(** [(NOTES.index(target_key) - NOTES.index(original_key)) % 12]; Python's
    [%] with a positive modulus is [Z.modulo]. *)
Definition interval (original_key target_key : str) : result Z :=
  it <- list_index NOTES target_key ;;
  io <- list_index NOTES original_key ;;
  Ok ((it - io) mod 12)%Z.

Definition transpose_song (song_text original_key target_key : str) : result str :=
  let original_key := normalize_chord original_key in
  let target_key := normalize_chord target_key in
  if negb (str_in original_key NOTES) || negb (str_in target_key NOTES)
  then Raise (ValueError invalid_key_msg)
  else
    semitones <- interval original_key target_key ;;
    re_sub chord_pattern (fun chord => transpose_chord chord semitones) song_text.


(** ** The endpoint [/api/transpose] *)

Definition transpose {db : Type} (b : backend db) (request : TransposeRequest) (w : db)
  : http_result * db :=
  match transpose_song (song_text request) (original_key request) (target_key request) with
  | Raise e =>
      (transpose_error (match e with ValueError _ => true | IndexError => false end)
                       (exn_text e), w)
  | Ok transposed =>
      let response := Returned (transpose_body request transposed) in
      if truthy (token request) then
        let email := verify_token b (or_default (token request) []) in
        if truthy email then
          let (stored, w') := store_song b request transposed (or_default email []) w in
          match stored with
          | Failed ve text => (transpose_error ve text, w')
          | Done _ => (response, w')
          end
        else (response, w)
      else (response, w)
  end.

(** ** Notions used to state the properties *)

(** [has_pair a b s]: the two characters [a], [b] occur next to each other
    in [s]. *)
Fixpoint has_pair (a b : char) (s : str) : bool :=
  match s with
  | [] => false
  | x :: s' =>
      char_eqb x a && match s' with y :: _ => char_eqb y b | [] => false end
      || has_pair a b s'
  end.

(** The spellings accepted as keys: the twelve names of [NOTES] and the five
    flat spellings of the [replacements] table. *)
Definition spellings : list str := NOTES ++ map fst replacements.

(** The root that [transpose_chord] extracts from a chord: a letter A to G
    and the sharp or flat sign that may follow it. *)
Definition root_of (chord : str) : option str :=
  match chord with
  | x :: rest =>
      if is_AG x
      then match rest with
           | y :: _ => if is_sharp_b y then Some [x; y] else Some [x]
           | [] => Some [x]
           end
      else None
  | [] => None
  end.

Definition begins_AG (chord : str) : bool :=
  match chord with
  | x :: _ => is_AG x
  | [] => false
  end.

(** The words of the quality alternatives, and the texts the starred group
    can match: sequences of these words and of digits. *)
Definition quality_pieces : list str :=
  [lit "m"; lit "maj"; lit "min"; lit "dim"; lit "aug"; lit "sus"; lit "add"].

Inductive quality_seq : str -> Prop :=
| qs_nil : quality_seq []
| qs_piece (p u : str) :
    In p quality_pieces -> quality_seq u -> quality_seq (p ++ u)
| qs_digit (d : char) (u : str) :
    is_digit d = true -> quality_seq u -> quality_seq (d :: u).

(** The characters of the quality words: a d g i j m n s u and the digits. *)
Definition quality_char (c : char) : bool :=
  is_digit c || char_in c (lit "adgijmnsu").

(** [reads r u rest]: the quality sequence [u] is read at the head of [r] up
    to the end of the word it stands in, and [rest] follows. *)
Definition reads (r u rest : str) : Prop :=
  r = u ++ rest /\ quality_seq u /\ word_after rest = false.

(** The match of the chord pattern at a position, by cases on what follows
    the letter: no sign, a flat sign, a sharp sign with a quality sequence, a
    sharp sign before some other word, and a letter alone before a sharp sign
    that ends a word. *)
Inductive chord_at (prev : option char) : str -> nat -> Prop :=
| chord_plain (x : char) (r u rest : str) :
    word_before prev = false -> is_AG x = true ->
    match r with y :: _ => is_sharp_b y = false | [] => True end ->
    reads r u rest ->
    chord_at prev (x :: r) (1 + length u)
| chord_flat (x : char) (r u rest : str) :
    word_before prev = false -> is_AG x = true ->
    reads r u rest ->
    chord_at prev (x :: 98%N :: r) (2 + length u)
| chord_sharp (x : char) (r u rest : str) :
    word_before prev = false -> is_AG x = true ->
    u <> [] -> reads r u rest ->
    chord_at prev (x :: 35%N :: r) (2 + length u)
| chord_sharp_bare (x : char) (r : str) :
    word_before prev = false -> is_AG x = true ->
    word_after r = true -> (forall u rest, ~ reads r u rest) ->
    chord_at prev (x :: 35%N :: r) 2
| chord_letter_sharp (x : char) (r : str) :
    word_before prev = false -> is_AG x = true ->
    word_after r = false ->
    chord_at prev (x :: 35%N :: r) 1.

(** The text of a span, the chords among spans, and the text made of the
    spans once every chord is rewritten by [g]. *)
Definition span_text (sp : span) : str :=
  match sp with
  | Literal c => [c]
  | Chord tok => tok
  end.

Fixpoint chords (l : list span) : list str :=
  match l with
  | [] => []
  | Literal _ :: l' => chords l'
  | Chord tok :: l' => tok :: chords l'
  end.

Definition rewrite_span (g : str -> str) (sp : span) : str :=
  match sp with
  | Literal c => [c]
  | Chord tok => g tok
  end.

(** The spans of a text under the chord pattern, and its chord tokens. *)
Definition chord_spans (text : str) : list span := scan chord_pattern 0 None text.

Definition chord_tokens (text : str) : list str := chords (chord_spans text).

(** The name a root is moved to: [NOTES[(NOTES.index(root) + semitones) % 12]]
    for a name of [NOTES], the root itself otherwise. *)
Definition shifted (semitones : Z) (root : str) : str :=
  match list_index NOTES root with
  | Ok i => match list_get NOTES ((i + semitones) mod 12)%Z with
            | Ok r => r
            | Raise _ => root
            end
  | Raise _ => root
  end.

(** A chord token as it stands before the text [rest], by the cases of
    [chord_at]. *)
Inductive chord_view (rest : str) : str -> Prop :=
| view_plain (x : char) (u : str) :
    is_AG x = true -> quality_seq u -> word_after rest = false ->
    (u = [] -> match rest with y :: _ => y <> 35%N | [] => True end) ->
    chord_view rest (x :: u)
| view_flat (x : char) (u : str) :
    is_AG x = true -> quality_seq u -> word_after rest = false ->
    chord_view rest (x :: 98%N :: u)
| view_sharp (x : char) (u : str) :
    is_AG x = true -> u <> [] -> quality_seq u -> word_after rest = false ->
    chord_view rest (x :: 35%N :: u)
| view_sharp_bare (x : char) :
    is_AG x = true -> word_after rest = true ->
    (forall u rest', ~ reads rest u rest') ->
    chord_view rest [x; 35%N]
| view_letter_sharp (x : char) (r : str) :
    is_AG x = true -> rest = 35%N :: r -> word_after r = false ->
    chord_view rest [x].

(** What [transpose_chord] returns for a token. *)
Definition rewritten (semitones : Z) (tok : str) : str :=
  match transpose_chord tok semitones with
  | Ok out => out
  | Raise _ => tok
  end.

(** [len(s.split())]: the number of words that white space separates;
    [in_word] tells whether the character before was part of a word. *)
Fixpoint words_from (in_word : bool) (s : str) : nat :=
  match s with
  | [] => 0
  | c :: s' =>
      if isspace c then words_from false s'
      else ((if in_word then 0 else 1) + words_from true s')%nat
  end.

Definition word_count (s : str) : nat := words_from false s.

(** What [transpose_song] may make of a span: a character outside the chords
    is kept; of a chord only the root is respelt, as itself or as a name of
    [NOTES]. *)
Definition span_kept (sp : span) (o : str) : Prop :=
  match sp with
  | Literal c => o = [c]
  | Chord tok =>
      exists root root' u,
        tok = root ++ u /\ root_of tok = Some root /\ o = root' ++ u /\
        (root' = root \/ In root' NOTES)
  end.

(** The text ends with a sharp sign. *)
Definition ends_sharp (s : str) : bool :=
  match last_char None s with
  | Some c => char_eqb c 35%N
  | None => false
  end.

Definition span_map (g : str -> str) (sp : span) : span :=
  match sp with
  | Literal c => Literal c
  | Chord tok => Chord (g tok)
  end.

(** No flat spelling of the [replacements] table occurs in [s]. *)
Definition flat_free (s : str) : bool :=
  forallb (fun fs => match fst fs with
                     | [a; b] => negb (has_pair a b s)
                     | _ => true
                     end) replacements.

(** The letters of the flat spellings of [replacements] with the letter of
    the sharp name each is replaced by, in the order of the table. *)
Definition flat_letters : list (char * char) :=
  [(68%N, 67%N); (69%N, 68%N); (71%N, 70%N); (65%N, 71%N); (66%N, 65%N)].

Fixpoint sharp_letter (tbl : list (char * char)) (x : char) : option char :=
  match tbl with
  | [] => None
  | ac :: tbl' => if char_eqb (fst ac) x then Some (snd ac) else sharp_letter tbl' x
  end.

(** One pass over a string that replaces each flat spelling of [tbl], a
    letter before the sign [b], by the sharp letter and the sign [#]. *)
Fixpoint sharpen (tbl : list (char * char)) (s : str) : str :=
  match s with
  | x :: ((y :: t) as s') =>
      match (if char_eqb y 98%N then sharp_letter tbl x else None) with
      | Some c => c :: 35%N :: sharpen tbl t
      | None => x :: sharpen tbl s'
      end
  | _ => s
  end.

(** ** Notions used in the proofs *)

(** A way to match ends after a prefix of the input, and records its last
    character. *)
Definition consumed (prev : option char) (s : str) (q : pos) : Prop :=
  exists u, s = u ++ snd q /\ fst q = last_char prev u.

(** The alternatives [p1|...|pk|other] of literal words. *)
Fixpoint alts (ps : list str) (other : regex) : regex :=
  match ps with
  | [] => other
  | p :: ps' => Alt (Str p) (alts ps' other)
  end.

(** The ends of the group of the chord pattern after the letter [x]: with
    the sign first, then without it. *)
Definition cands (x : char) (r : str) : list pos :=
  match r with
  | y :: r' =>
      if is_sharp_b y then star_loop (ends quality) (length r') (Some y) r' else []
  | [] => []
  end
  ++ star_loop (ends quality) (length r) (Some x) r.

Definition bounded (q : pos) : bool := at_boundary (fst q) (snd q).

Definition nonspace (c : char) : bool := negb (isspace c).

(** A piece of text without white space, and not empty. *)
Definition solid (v : str) : Prop := v <> [] /\ forallb nonspace v = true.

(** A character of a token is a word character or the sharp sign. *)
Definition token_char (c : char) : bool := is_word c || char_eqb c 35%N.

(** The text that a pass of [semitones] writes for [s], read after [prev]. *)
Definition out_from (semitones : Z) (prev : option char) (s : str) : str :=
  concat (map (rewrite_span (rewritten semitones)) (scan chord_pattern 0 prev s)).

(** Arithmetic on the character classes. *)
Ltac char_cases :=
  unfold quality_char, ascii_word, is_digit, is_AG, is_sharp_b, isspace,
    in_range, char_in, char_eqb in *;
  cbn [lit map list_ascii_of_string N_of_ascii N_of_digits existsb N.add N.mul] in *;
  repeat rewrite ?orb_true_iff, ?andb_true_iff, ?orb_false_iff, ?andb_false_iff,
    ?N.leb_le, ?N.leb_gt, ?N.eqb_eq, ?N.eqb_neq, ?N.ltb_lt, ?N.ltb_ge in *;
  try lia.

Ltac word_cases c :=
  unfold is_word in *; destruct (N.ltb_spec c 128); char_cases.

(** * Properties *)

(** ** Strings *)

Lemma char_eqb_eq (a b : char) : char_eqb a b = true <-> a = b.
Proof. apply N.eqb_eq. Qed.

Lemma char_eqb_refl (a : char) : char_eqb a a = true.
Proof. apply N.eqb_refl. Qed.

Lemma str_eqb_eq (a b : str) : str_eqb a b = true <-> a = b.
Proof.
  revert b; induction a as [|x a IH]; intros [|y b]; simpl; split;
    try discriminate; try reflexivity.
  - intros H. apply andb_true_iff in H as [H1 H2].
    apply char_eqb_eq in H1. apply IH in H2. congruence.
  - intros H. injection H as -> ->. rewrite char_eqb_refl. simpl. now apply IH.
Qed.

Lemma str_eqb_refl (a : str) : str_eqb a a = true.
Proof. now apply str_eqb_eq. Qed.

Lemma str_in_In (x : str) (l : list str) : str_in x l = true <-> In x l.
Proof.
  unfold str_in. rewrite existsb_exists. split.
  - intros (y & Hy & E). apply str_eqb_eq in E. now subst.
  - intros H. exists x. split; [assumption | apply str_eqb_refl].
Qed.

(** ** Replacement of a two-character spelling *)

Lemma replace_pair_step (a b : char) (new : str) (x y : char) (t : str) :
  replace_from [a; b] new 0 (x :: y :: t) =
  if char_eqb a x && char_eqb b y
  then new ++ replace_from [a; b] new 0 t
  else x :: replace_from [a; b] new 0 (y :: t).
Proof.
  cbn [replace_from starts_with length Nat.sub].
  rewrite andb_true_r. reflexivity.
Qed.

Lemma replace_pair_one (a b : char) (new : str) (x : char) :
  replace_from [a; b] new 0 [x] = [x].
Proof.
  cbn [replace_from starts_with]. rewrite andb_false_r. reflexivity.
Qed.

Lemma has_pair_cons (a b x : char) (s : str) :
  has_pair a b (x :: s) =
  char_eqb x a && match s with y :: _ => char_eqb y b | [] => false end
  || has_pair a b s.
Proof. reflexivity. Qed.

(** Induction over a string two characters at a time. *)
Lemma str_pair_ind (P : str -> Prop) :
  P [] -> (forall x, P [x]) ->
  (forall x y t, P t -> P (y :: t) -> P (x :: y :: t)) ->
  forall s, P s.
Proof.
  intros H0 H1 H2 s.
  assert (H : P s /\ forall x, P (x :: s)).
  { induction s as [|y t [IHa IHb]]; split; auto. }
  apply H.
Qed.

(** A string without the spelling is left as it is. *)
Lemma replace_absent (a b : char) (new s : str) :
  has_pair a b s = false -> replace_from [a; b] new 0 s = s.
Proof.
  induction s as [| x | x y t IHt IHyt] using str_pair_ind; intros H.
  - reflexivity.
  - apply replace_pair_one.
  - rewrite replace_pair_step.
    rewrite has_pair_cons in H. apply orb_false_iff in H as [H1 H2].
    replace (char_eqb a x && char_eqb b y) with false.
    + f_equal. now apply IHyt.
    + symmetry. unfold char_eqb in *. rewrite (N.eqb_sym a x), (N.eqb_sym b y).
      exact H1.
Qed.

Section ReplacePair.

(** The spelling [a b] is replaced by [c d]; [a' b'] is a spelling that the
    characters [c] and [d] cannot take part in. *)
Variables a b c d a' b' : char.
Hypothesis c_snd : c <> b'.
Hypothesis d_snd : d <> b'.
Hypothesis d_fst : d <> a'.

Let rep := replace_from [a; b] [c; d] 0.

Lemma replace_head (s : str) :
  match rep s with
  | z :: _ => z = c \/ exists t, s = z :: t
  | [] => s = []
  end.
Proof.
  destruct s as [|x [|y t]]; unfold rep.
  - reflexivity.
  - rewrite replace_pair_one. right. now exists [].
  - rewrite replace_pair_step. destruct (char_eqb a x && char_eqb b y); simpl.
    + now left.
    + right. now eexists.
Qed.

(** Replacing creates no occurrence of [a' b'], and removes those of [a b]. *)
Lemma replace_pair_sound (s : str) :
  has_pair a' b' (rep s) = true ->
  has_pair a' b' s = true /\ ~ (a' = a /\ b' = b).
Proof.
  induction s as [| x | x y t IHt IHyt] using str_pair_ind; unfold rep in *.
  - discriminate.
  - rewrite replace_pair_one. simpl. rewrite andb_false_r. discriminate.
  - rewrite replace_pair_step.
    destruct (char_eqb a x && char_eqb b y) eqn:E.
    + cbn [app]. rewrite !has_pair_cons.
      intros H. apply orb_true_iff in H as [H | H].
      { apply andb_true_iff in H as [_ H]. apply char_eqb_eq in H. contradiction. }
      apply orb_true_iff in H as [H | H].
      { apply andb_true_iff in H as [H _]. apply char_eqb_eq in H. contradiction. }
      destruct (IHt H) as [H1 H2]. split; [| assumption].
      rewrite H1. now rewrite !orb_true_r.
    + rewrite has_pair_cons. intros H. apply orb_true_iff in H as [H | H].
      * apply andb_true_iff in H as [Hx Hy].
        apply char_eqb_eq in Hx. subst x.
        pose proof (replace_head (y :: t)) as Hh. unfold rep in Hh.
        destruct (replace_from [a; b] [c; d] 0 (y :: t)) as [|z r]; [discriminate|].
        apply char_eqb_eq in Hy. subst z.
        destruct Hh as [Hh | (t' & Hh)]; [congruence|].
        injection Hh as -> _.
        split.
        { rewrite has_pair_cons, !char_eqb_refl. reflexivity. }
        intros [-> ->]. rewrite !char_eqb_refl in E. discriminate.
      * destruct (IHyt H) as [H1 H2]. split; [| assumption].
        rewrite (has_pair_cons a' b' x (y :: t)), H1. apply orb_true_r.
Qed.

End ReplacePair.

Lemma replace_pair_keeps (a b c d a' b' : char) (s : str) :
  c <> b' -> d <> b' -> d <> a' ->
  has_pair a' b' s = false ->
  has_pair a' b' (replace_from [a; b] [c; d] 0 s) = false.
Proof.
  intros Hc Hd Hd' H.
  destruct (has_pair a' b' (replace_from [a; b] [c; d] 0 s)) eqn:E; [| reflexivity].
  apply replace_pair_sound in E as [E _]; congruence.
Qed.

Lemma replace_pair_removes (a b c d : char) (s : str) :
  c <> b -> d <> b -> d <> a ->
  has_pair a b (replace_from [a; b] [c; d] 0 s) = false.
Proof.
  intros Hc Hd Hd'.
  destruct (has_pair a b (replace_from [a; b] [c; d] 0 s)) eqn:E; [| reflexivity].
  apply replace_pair_sound in E as [_ E]; try assumption.
  exfalso. apply E. now split.
Qed.

(** ** Normalisation of flats to sharps *)

(** The five replacements of [normalize_chord], in the order of the table. *)
Lemma normalize_chord_passes (s : str) :
  normalize_chord s =
  replace_from (lit "Bb") (lit "A#") 0
    (replace_from (lit "Ab") (lit "G#") 0
      (replace_from (lit "Gb") (lit "F#") 0
        (replace_from (lit "Eb") (lit "D#") 0
          (replace_from (lit "Db") (lit "C#") 0 s)))).
Proof. reflexivity. Qed.

Lemma flat_free_pairs (s : str) :
  flat_free s = true <->
  has_pair 68%N 98%N s = false /\ has_pair 69%N 98%N s = false /\
  has_pair 71%N 98%N s = false /\ has_pair 65%N 98%N s = false /\
  has_pair 66%N 98%N s = false.
Proof.
  unfold flat_free. cbn [forallb replacements fst lit map list_ascii_of_string N_of_ascii].
  cbn. rewrite !andb_true_iff, !negb_true_iff. tauto.
Qed.

Lemma normalize_chord_flat_free (s : str) : flat_free (normalize_chord s) = true.
Proof.
  apply flat_free_pairs. rewrite normalize_chord_passes.
  cbv [lit map list_ascii_of_string N_of_ascii N_of_digits N.add N.mul].
  repeat split;
    repeat first
      [ apply replace_pair_removes; discriminate
      | apply replace_pair_keeps; [discriminate | discriminate | discriminate |] ].
Qed.

Lemma normalize_chord_fixed (s : str) :
  flat_free s = true -> normalize_chord s = s.
Proof.
  intros H. apply flat_free_pairs in H as (H1 & H2 & H3 & H4 & H5).
  rewrite normalize_chord_passes.
  cbv [lit map list_ascii_of_string N_of_ascii N_of_digits N.add N.mul].
  rewrite (replace_absent _ _ _ _ H1), (replace_absent _ _ _ _ H2),
    (replace_absent _ _ _ _ H3), (replace_absent _ _ _ _ H4).
  now apply replace_absent.
Qed.

(** C9: normalising twice is normalising once; after one pass of the five
    replacements none of the five flat spellings is left, and a text without
    them is left as it is by a pass. *)
Theorem normalize_chord_idempotent (s : str) :
  flat_free (normalize_chord s) = true /\
  normalize_chord (normalize_chord s) = normalize_chord s.
Proof.
  split.
  - apply normalize_chord_flat_free.
  - apply normalize_chord_fixed, normalize_chord_flat_free.
Qed.

(** ** Keys and intervals *)

Lemma list_index_NOTES (a : str) :
  In a NOTES ->
  exists i, list_index NOTES a = Ok i /\ (0 <= i < 12)%Z /\
            nth_error NOTES (Z.to_nat i) = Some a.
Proof.
  intros H. simpl in H.
  repeat (destruct H as [<- | H]; [eexists; split; [vm_compute; reflexivity |];
                                   split; [lia | reflexivity] |]).
  contradiction.
Qed.

Lemma transpose_song_invalid (text k1 k2 : str) :
  ~ In (normalize_chord k1) NOTES \/ ~ In (normalize_chord k2) NOTES ->
  transpose_song text k1 k2 = Raise (ValueError invalid_key_msg).
Proof.
  intros H. unfold transpose_song.
  destruct (str_in (normalize_chord k1) NOTES) eqn:E1.
  - destruct (str_in (normalize_chord k2) NOTES) eqn:E2.
    + apply str_in_In in E1, E2. tauto.
    + reflexivity.
  - reflexivity.
Qed.

(** C4: each of the seventeen spellings normalises to a name of [NOTES]; a
    flat spelling and the sharp name at the same place of the scale normalise
    to the same name; and a key that is not in [NOTES] after the replacements
    makes [transpose_song] raise its error. *)
Theorem normalize_key_spec :
  (forall p, In p spellings -> In (normalize_chord p) NOTES) /\
  Forall2 (fun flat sharp => normalize_chord flat = sharp /\
                             normalize_chord sharp = sharp) NOTES_FLAT NOTES /\
  (forall text k1 k2,
     ~ In (normalize_chord k1) NOTES \/ ~ In (normalize_chord k2) NOTES ->
     transpose_song text k1 k2 = Raise (ValueError invalid_key_msg)).
Proof.
  split; [| split].
  - intros p H. apply str_in_In. simpl in H.
    repeat (destruct H as [<- | H]; [vm_compute; reflexivity |]).
    contradiction.
  - repeat constructor.
  - apply transpose_song_invalid.
Qed.

(** C5: on the names of [NOTES] the interval is the difference of the
    positions modulo 12, the positions being 0 for C up to 11 for B; it lies
    between 0 and 11 and is 0 from a name to itself. *)
Theorem interval_spec :
  map (list_index NOTES) NOTES = map Ok [0; 1; 2; 3; 4; 5; 6; 7; 8; 9; 10; 11]%Z /\
  forall a b, In a NOTES -> In b NOTES ->
    exists ia ib,
      list_index NOTES a = Ok ia /\ list_index NOTES b = Ok ib /\
      interval a b = Ok ((ib - ia) mod 12)%Z /\
      (0 <= (ib - ia) mod 12 <= 11)%Z /\
      interval a a = Ok 0%Z.
Proof.
  split; [reflexivity |].
  intros a b Ha Hb.
  destruct (list_index_NOTES a Ha) as (ia & Ea & Ra & _).
  destruct (list_index_NOTES b Hb) as (ib & Eb & Rb & _).
  exists ia, ib. unfold interval. rewrite Ea, Eb. simpl.
  repeat split; try (pose proof (Z.mod_pos_bound (ib - ia) 12); lia).
  now rewrite Z.sub_diag.
Qed.

(** C8: the two scenarios of the specification. *)
Theorem concrete_scenarios :
  transpose_song
    (lit "C        Am" ++ [10%N] ++ lit "Esta es mi canci" ++ [243%N] ++ lit "n"
     ++ [10%N] ++ lit "F         G" ++ [10%N])
    (lit "C") (lit "D")
  = Ok (lit "D        Bm" ++ [10%N] ++ lit "Esta es mi canci" ++ [243%N] ++ lit "n"
        ++ [10%N] ++ lit "G         A" ++ [10%N]) /\
  transpose_song (lit "Gm7 to Dsus4") (lit "G") (lit "A") = Ok (lit "Am7 to Esus4").
Proof.
  split.
  - vm_compute. destruct (unicode_alnum 243%N); reflexivity.
  - vm_compute. reflexivity.
Qed.

(** ** The matcher *)

Lemma last_char_app (p : option char) (u v : str) :
  last_char p (u ++ v) = last_char (last_char p u) v.
Proof. revert p; induction u as [|c u IH]; intros p; simpl; auto. Qed.

Lemma starts_with_split (l s : str) :
  starts_with l s = true -> s = l ++ skipn (length l) s.
Proof.
  revert s; induction l as [|x l IH]; intros [|y s]; simpl; try discriminate; auto.
  intros H. apply andb_true_iff in H as [H1 H2].
  apply char_eqb_eq in H1. subst y. f_equal. now apply IH.
Qed.

Lemma consumed_refl (prev : option char) (s : str) : consumed prev s (prev, s).
Proof. now exists []. Qed.

Lemma consumed_trans (prev : option char) (s : str) (q q' : pos) :
  consumed prev s q -> consumed (fst q) (snd q) q' -> consumed prev s q'.
Proof.
  intros (u & Hu & Hp) (v & Hv & Hq). exists (u ++ v). split.
  - rewrite <- app_assoc, <- Hv. exact Hu.
  - now rewrite last_char_app, <- Hp.
Qed.

Lemma star_loop_sound (step : option char -> str -> list pos) :
  (forall p s q, In q (step p s) -> consumed p s q) ->
  forall n p s q, In q (star_loop step n p s) -> consumed p s q.
Proof.
  intros Hstep n. induction n as [|n IH]; intros p s q H; simpl in H.
  - destruct H as [<- | []]. apply consumed_refl.
  - apply in_app_or in H as [H | [<- | []]]; [| apply consumed_refl].
    apply in_flat_map in H as (q1 & H1 & H2).
    destruct (length (snd q1) <? length s)%nat; [| contradiction].
    eapply consumed_trans; [apply Hstep, H1 | apply IH, H2].
Qed.

Lemma ends_sound (r : regex) :
  forall p s q, In q (ends r p s) -> consumed p s q.
Proof.
  induction r as [| | cls | l | a IHa b IHb | a IHa b IHb | a IHa | a IHa];
    intros p s q H; simpl in H.
  - destruct p; [contradiction |]. destruct H as [<- | []]. apply consumed_refl.
  - destruct (at_boundary p s); [| contradiction].
    destruct H as [<- | []]. apply consumed_refl.
  - destruct s as [|c s]; [contradiction |].
    destruct (cls c); [| contradiction].
    destruct H as [<- | []]. now exists [c].
  - destruct (starts_with l s) eqn:E; [| contradiction].
    destruct H as [<- | []]. exists l. split; [| reflexivity].
    now apply starts_with_split.
  - apply in_flat_map in H as (q1 & H1 & H2).
    eapply consumed_trans; [apply IHa, H1 | apply IHb, H2].
  - apply in_app_or in H as [H | H]; auto.
  - apply in_app_or in H as [H | [<- | []]]; auto. apply consumed_refl.
  - eapply star_loop_sound; eauto.
Qed.

Lemma consumed_length (p : option char) (s : str) (q : pos) :
  consumed p s q -> (length (snd q) <= length s)%nat.
Proof. intros (u & -> & _). rewrite length_app. lia. Qed.

(** A match is a prefix of the input. *)
Lemma match_at_le (r : regex) (p : option char) (s : str) (n : nat) :
  match_at r p s = Some n -> (n <= length s)%nat.
Proof.
  unfold match_at. destruct (ends r p s) as [|q l]; [discriminate |].
  intros H. injection H as <-. lia.
Qed.

(** The extraction of the root by [re.match]. *)
Lemma re_match_root (chord : str) : re_match root_pattern chord = root_of chord.
Proof.
  unfold re_match, match_at, root_of, root_pattern.
  destruct chord as [|x rest]; [reflexivity |].
  cbn -[Nat.sub length firstn].
  destruct (is_AG x); [| reflexivity].
  destruct rest as [|y rest]; [reflexivity |].
  cbn -[Nat.sub length firstn].
  destruct (is_sharp_b y); cbn -[Nat.sub length firstn].
  - replace (length (x :: y :: rest) - length rest)%nat with 2%nat
      by (cbn [length]; lia).
    reflexivity.
  - replace (length (x :: y :: rest) - length (y :: rest))%nat with 1%nat
      by (cbn [length]; lia).
    reflexivity.
Qed.

(** ** Blank chords *)

Lemma lstrip_nil (s : str) : lstrip s = [] <-> forallb isspace s = true.
Proof.
  induction s as [|c s IH]; simpl; [tauto |].
  destruct (isspace c); simpl; [exact IH |]. split; discriminate.
Qed.

Lemma lstrip_all (s : str) : forallb isspace (lstrip s) = forallb isspace s.
Proof.
  induction s as [|c s IH]; simpl; [reflexivity |].
  destruct (isspace c) eqn:E; simpl; [exact IH |]. now rewrite E.
Qed.

Lemma forallb_rev (f : char -> bool) (s : str) :
  forallb f (rev s) = forallb f s.
Proof.
  induction s as [|c s IH]; simpl; [reflexivity |].
  rewrite forallb_app, IH. simpl. rewrite andb_true_r. apply andb_comm.
Qed.

(** [chord.strip() == ''] holds of the chords made of white space only. *)
Lemma strip_blank (chord : str) :
  str_eqb (strip chord) [] = forallb isspace chord.
Proof.
  unfold strip.
  destruct (forallb isspace chord) eqn:E.
  - apply lstrip_nil in E. rewrite E. reflexivity.
  - destruct (str_eqb _ _) eqn:F; [| reflexivity].
    apply str_eqb_eq in F.
    apply (f_equal (@rev char)) in F. rewrite rev_involutive in F. simpl in F.
    apply lstrip_nil in F. rewrite forallb_rev, lstrip_all in F. congruence.
Qed.

Lemma has_pair_absent (a b : char) (s : str) :
  char_in b s = false -> has_pair a b s = false.
Proof.
  unfold char_in.
  induction s as [|x s IH]; [reflexivity |].
  rewrite has_pair_cons. cbn [existsb]. intros H.
  apply orb_false_iff in H as [H1 H2]. rewrite (IH H2), orb_false_r.
  destruct s as [|y s]; [apply andb_false_r |].
  cbn [existsb] in H2. apply orb_false_iff in H2 as [H2 _].
  unfold char_eqb in *. rewrite (N.eqb_sym y b), H2. apply andb_false_r.
Qed.

Lemma no_b_flat_free (s : str) : char_in 98%N s = false -> flat_free s = true.
Proof.
  intros H. apply flat_free_pairs. repeat split; now apply has_pair_absent.
Qed.

Lemma blank_no_b (s : str) : forallb isspace s = true -> char_in 98%N s = false.
Proof.
  unfold char_in. induction s as [|c s IH]; [reflexivity |].
  cbn [forallb existsb]. intros H. apply andb_true_iff in H as [H1 H2].
  rewrite (IH H2), orb_false_r.
  unfold char_eqb. destruct (N.eqb_spec 98 c) as [<- |]; [discriminate | reflexivity].
Qed.

Lemma normalize_chord_blank (s : str) :
  forallb isspace s = true -> normalize_chord s = s.
Proof. intros H. now apply normalize_chord_fixed, no_b_flat_free, blank_no_b. Qed.

(** ** One chord *)

Lemma list_get_NOTES (j : Z) :
  (0 <= j < 12)%Z ->
  exists x, list_get NOTES j = Ok x /\ nth_error NOTES (Z.to_nat j) = Some x /\
            In x NOTES.
Proof.
  intros H.
  assert (E : exists k, (k < 12)%nat /\ j = Z.of_nat k).
  { exists (Z.to_nat j). split; lia. }
  destruct E as (k & Hk & ->).
  do 12 (destruct k as [|k];
         [eexists; split; [reflexivity |]; split; [reflexivity |];
          apply str_in_In; reflexivity |]).
  lia.
Qed.

(** The body of [transpose_chord], with the root read off the chord. *)
Lemma transpose_chord_eq (chord : str) (semitones : Z) :
  transpose_chord chord semitones =
  if forallb isspace chord then Ok chord
  else
    let chord' := normalize_chord chord in
    match root_of chord' with
    | None => Ok chord'
    | Some root =>
        let root' := if char_in 98%N root then normalize_chord root else root in
        if negb (str_in root' NOTES) then Ok chord'
        else
          old_index <- list_index NOTES root' ;;
          new_root <- list_get NOTES ((old_index + semitones) mod 12)%Z ;;
          Ok (new_root ++ skipn (length root) chord')
    end.
Proof.
  unfold transpose_chord. rewrite strip_blank, re_match_root.
  destruct chord as [|c chord]; [reflexivity |]. reflexivity.
Qed.

Lemma transpose_chord_ok (chord : str) (semitones : Z) :
  exists out, transpose_chord chord semitones = Ok out.
Proof.
  rewrite transpose_chord_eq.
  destruct (forallb isspace chord); [now eexists |]. cbv zeta.
  destruct (root_of (normalize_chord chord)) as [root |]; [| now eexists].
  set (root' := if char_in 98%N root then normalize_chord root else root).
  destruct (str_in root' NOTES) eqn:E; simpl; [| now eexists].
  apply str_in_In in E.
  destruct (list_index_NOTES _ E) as (i & -> & _). simpl.
  destruct (list_get_NOTES ((i + semitones) mod 12)%Z) as (x & -> & _).
  { apply Z.mod_pos_bound. lia. }
  simpl. now eexists.
Qed.

Lemma replace_pair_begins (a b c d : char) (s : str) :
  is_AG a = true -> is_AG c = true ->
  begins_AG (replace_from [a; b] [c; d] 0 s) = begins_AG s.
Proof.
  intros Ha Hc. destruct s as [|x [|y t]].
  - reflexivity.
  - now rewrite replace_pair_one.
  - rewrite replace_pair_step.
    destruct (char_eqb a x && char_eqb b y) eqn:E; [| reflexivity].
    apply andb_true_iff in E as [E _]. apply char_eqb_eq in E. subst x.
    simpl. congruence.
Qed.

Lemma normalize_chord_begins (chord : str) :
  begins_AG (normalize_chord chord) = begins_AG chord.
Proof.
  rewrite normalize_chord_passes.
  cbv [lit map list_ascii_of_string N_of_ascii N_of_digits N.add N.mul].
  now rewrite !replace_pair_begins.
Qed.

Lemma root_of_none (chord : str) : root_of chord = None <-> begins_AG chord = false.
Proof.
  destruct chord as [|x [|y t]]; simpl; try tauto;
    destruct (is_AG x); try destruct (is_sharp_b y); split; congruence.
Qed.

(** C10, as the code has it: [transpose_chord] returns a string for every
    chord and every number of semitones; a chord that is empty or made of
    white space is returned as it is; a chord that does not begin with a
    letter A to G, or whose root is not a name of [NOTES], is returned after
    [normalize_chord], which leaves it as it is when it holds no flat
    spelling. *)
Theorem transpose_chord_total (chord : str) (semitones : Z) :
  (exists out, transpose_chord chord semitones = Ok out) /\
  (forallb isspace chord = true -> transpose_chord chord semitones = Ok chord) /\
  (begins_AG chord = false ->
   transpose_chord chord semitones = Ok (normalize_chord chord)) /\
  (forall root,
     re_match root_pattern (normalize_chord chord) = Some root ->
     ~ In (if char_in 98%N root then normalize_chord root else root) NOTES ->
     transpose_chord chord semitones = Ok (normalize_chord chord)) /\
  (flat_free chord = true -> normalize_chord chord = chord).
Proof.
  split; [apply transpose_chord_ok |].
  split; [| split; [| split]].
  - intros H. rewrite transpose_chord_eq, H. reflexivity.
  - intros H. rewrite transpose_chord_eq.
    destruct (forallb isspace chord) eqn:E.
    + now rewrite normalize_chord_blank.
    + cbv zeta. rewrite <- normalize_chord_begins in H.
      apply root_of_none in H. now rewrite H.
  - intros root Hroot Hnot. rewrite re_match_root in Hroot.
    rewrite transpose_chord_eq.
    destruct (forallb isspace chord) eqn:E.
    + now rewrite normalize_chord_blank.
    + cbv zeta. rewrite Hroot.
      destruct (str_in _ NOTES) eqn:F; [| reflexivity].
      apply str_in_In in F. contradiction.
  - apply normalize_chord_fixed.
Qed.

(** ** The quality group *)

Lemma quality_alts : quality = alts quality_pieces (Cls is_digit).
Proof. reflexivity. Qed.

Lemma ends_alts (ps : list str) (other : regex) (prev : option char) (s : str) (q : pos) :
  In q (ends (alts ps other) prev s) <->
  (exists p, In p ps /\ starts_with p s = true /\
             q = (last_char prev p, skipn (length p) s))
  \/ In q (ends other prev s).
Proof.
  induction ps as [|p ps IH]; cbn [alts].
  - split; [now right |]. intros [(p & [] & _) | H]; assumption.
  - cbn [ends]. rewrite in_app_iff, IH. split.
    + intros [H | [(p' & H1 & H2) | H]].
      * destruct (starts_with p s) eqn:E; [| contradiction].
        destruct H as [<- | []]. left. exists p. simpl. auto.
      * left. exists p'. simpl. auto.
      * now right.
    + intros [(p' & [<- | H1] & H2 & ->) | H].
      * left. rewrite H2. now left.
      * right. left. now exists p'.
      * right. now right.
Qed.

(** One iteration of the group reads a quality word or a digit. *)
Lemma ends_quality (prev : option char) (s : str) (q : pos) :
  In q (ends quality prev s) <->
  (exists p, In p quality_pieces /\ s = p ++ snd q /\ fst q = last_char prev p)
  \/ (exists d, is_digit d = true /\ s = d :: snd q /\ fst q = Some d).
Proof.
  rewrite quality_alts, ends_alts. split.
  - intros [(p & H1 & H2 & ->) | H].
    + left. exists p. split; [assumption |]. split; [| reflexivity].
      now apply starts_with_split.
    + right. cbn [ends] in H. destruct s as [|c s]; [contradiction |].
      destruct (is_digit c) eqn:E; [| contradiction].
      destruct H as [<- | []]. now exists c.
  - intros [(p & H1 & H2 & H3) | (d & H1 & H2 & H3)].
    + left. exists p. split; [assumption |].
      assert (E : starts_with p s = true).
      { rewrite H2. clear. induction p as [|x p IH]; simpl; [reflexivity |].
        now rewrite char_eqb_refl. }
      split; [assumption |]. destruct q as [q1 q2]. simpl in *. subst q1.
      f_equal. rewrite H2. clear.
      induction p as [|x p IH]; simpl; auto.
    + right. rewrite H2. cbn [ends]. rewrite H1. destruct q. simpl in *.
      subst. now left.
Qed.

Lemma quality_piece_nonempty (p : str) : In p quality_pieces -> p <> [].
Proof.
  intros H. simpl in H.
  repeat (destruct H as [<- | H]; [discriminate |]). contradiction.
Qed.

(** What the loop of the group can have read is a quality sequence. *)
Lemma star_quality_sound (n : nat) :
  forall prev s q, In q (star_loop (ends quality) n prev s) ->
    exists u, s = u ++ snd q /\ fst q = last_char prev u /\ quality_seq u.
Proof.
  induction n as [|n IH]; intros prev s q H; cbn [star_loop] in H.
  - destruct H as [<- | []]. exists []. repeat split. constructor.
  - apply in_app_or in H as [H | [<- | []]].
    2: { exists []. repeat split. constructor. }
    apply in_flat_map in H as (q1 & H1 & H2).
    destruct (length (snd q1) <? length s)%nat; [| contradiction].
    apply IH in H2 as (u & Hu & Hp & Hq).
    apply ends_quality in H1 as [(p & P1 & P2 & P3) | (d & P1 & P2 & P3)].
    + exists (p ++ u). split; [| split].
      * now rewrite <- app_assoc, <- Hu.
      * now rewrite last_char_app, <- P3.
      * now constructor.
    + exists (d :: u). split; [| split].
      * simpl. now rewrite <- Hu.
      * simpl. now rewrite <- P3.
      * now constructor.
Qed.

(** Every quality sequence at the head of the input is read by the loop. *)
Lemma star_quality_complete (u : str) :
  quality_seq u ->
  forall prev rest n, (length (u ++ rest) <= n)%nat ->
    In (last_char prev u, rest) (star_loop (ends quality) n prev (u ++ rest)).
Proof.
  induction 1 as [| p u Hp Hu IH | d u Hd Hu IH]; intros prev rest n Hn.
  - destruct n; simpl; [now left |]. apply in_or_app. right. now left.
  - pose proof (quality_piece_nonempty _ Hp) as Hne.
    destruct n as [|n].
    { rewrite <- app_assoc, length_app in Hn. destruct p; [congruence |].
      simpl in Hn. lia. }
    cbn [star_loop]. apply in_or_app. left. apply in_flat_map.
    exists (last_char prev p, u ++ rest). split.
    + apply ends_quality. left. exists p. rewrite <- app_assoc. auto.
    + cbn [fst snd]. rewrite <- app_assoc, (length_app p).
      destruct p as [|x p]; [congruence |].
      replace (_ <? _)%nat with true.
      2: { symmetry. apply Nat.ltb_lt. simpl. lia. }
      rewrite last_char_app. apply IH.
      rewrite <- app_assoc, (length_app (x :: p)) in Hn. simpl in Hn. lia.
  - destruct n as [|n]; [simpl in Hn; lia |].
    cbn [star_loop]. apply in_or_app. left. apply in_flat_map.
    exists (Some d, u ++ rest). split.
    + apply ends_quality. right. exists d. auto.
    + cbn [fst snd]. replace (_ <? _)%nat with true.
      2: { symmetry. apply Nat.ltb_lt. simpl. lia. }
      apply (IH (Some d)). simpl in Hn. lia.
Qed.

(** The greedy loop lists the exits after some iterations before the exit
    after none. *)
Lemma star_loop_split (step : option char -> str -> list pos) (n : nat)
    (prev : option char) (s : str) :
  (forall p s q, In q (step p s) -> consumed p s q) ->
  exists l, star_loop step n prev s = l ++ [(prev, s)] /\
            forall q, In q l -> (length (snd q) < length s)%nat.
Proof.
  intros Hstep. destruct n as [|n]; cbn [star_loop].
  - exists []. split; [reflexivity |]. intros q [].
  - eexists. split; [reflexivity |]. intros q H.
    apply in_flat_map in H as (q1 & H1 & H2).
    destruct (length (snd q1) <? length s)%nat eqn:E; [| contradiction].
    apply Nat.ltb_lt in E.
    apply (star_loop_sound _ Hstep) in H2. apply consumed_length in H2. lia.
Qed.

(** ** The chord pattern at one position *)

Lemma flat_map_bounded (l : list pos) :
  flat_map (fun q => if at_boundary (fst q) (snd q) then [(fst q, snd q)] else []) l
  = filter bounded l.
Proof.
  induction l as [|[p s] l IH]; simpl; [reflexivity |].
  rewrite IH. unfold bounded. simpl. now destruct (at_boundary p s).
Qed.

Lemma ends_chord_pattern (prev : option char) (x : char) (r : str) :
  ends chord_pattern prev (x :: r) =
  if at_boundary prev (x :: r) && is_AG x then filter bounded (cands x r) else [].
Proof.
  unfold chord_pattern. cbn -[quality star_loop at_boundary].
  destruct (at_boundary prev (x :: r)); [| reflexivity].
  cbn -[quality star_loop at_boundary].
  destruct (is_AG x); [| reflexivity].
  cbn -[quality star_loop at_boundary].
  rewrite !app_nil_r, flat_map_bounded. unfold cands.
  rewrite flat_map_app. cbn -[quality star_loop at_boundary].
  rewrite app_nil_r. f_equal. f_equal.
  destruct r as [|y r']; [reflexivity |].
  destruct (is_sharp_b y); [| reflexivity].
  cbn -[quality star_loop at_boundary]. now rewrite app_nil_r.
Qed.

Lemma ends_chord_pattern_nil (prev : option char) : ends chord_pattern prev [] = [].
Proof.
  unfold chord_pattern. cbn -[quality star_loop at_boundary].
  destruct (at_boundary prev []); reflexivity.
Qed.

(** ** Characters *)

Lemma is_AG_word (c : char) : is_AG c = true -> is_word c = true.
Proof. intros H. word_cases c. Qed.

Lemma is_AG_not_space (c : char) : is_AG c = true -> isspace c = false.
Proof. intros H. char_cases. Qed.

Lemma quality_char_word (c : char) : quality_char c = true -> is_word c = true.
Proof. intros H. word_cases c. Qed.

Lemma quality_char_not_sign (c : char) : quality_char c = true -> is_sharp_b c = false.
Proof. intros H. char_cases. Qed.

Lemma quality_char_not_AG (c : char) : quality_char c = true -> is_AG c = false.
Proof. intros H. char_cases. Qed.

Lemma quality_char_not_space (c : char) : quality_char c = true -> isspace c = false.
Proof. intros H. char_cases. Qed.

Lemma digit_quality_char (c : char) : is_digit c = true -> quality_char c = true.
Proof. intros H. unfold quality_char. now rewrite H. Qed.

Lemma quality_seq_chars (u : str) :
  quality_seq u -> forallb quality_char u = true.
Proof.
  induction 1 as [| p u Hp Hu IH | d u Hd Hu IH].
  - reflexivity.
  - rewrite forallb_app, IH, andb_true_r. simpl in Hp.
    repeat (destruct Hp as [<- | Hp]; [reflexivity |]). contradiction.
  - simpl. now rewrite IH, digit_quality_char.
Qed.

Lemma quality_seq_words (u : str) : quality_seq u -> forallb is_word u = true.
Proof.
  intros H. apply quality_seq_chars in H. rewrite forallb_forall in *.
  intros c Hc. apply quality_char_word. now apply H.
Qed.

(** ** The end of a word *)

Lemma word_run_unique (u u' rest rest' : str) :
  forallb is_word u = true -> forallb is_word u' = true ->
  word_after rest = false -> word_after rest' = false ->
  u ++ rest = u' ++ rest' -> u = u' /\ rest = rest'.
Proof.
  revert u'. induction u as [|c u IH]; intros [|c' u'] Hu Hu' Hr Hr' E; simpl in *.
  - auto.
  - subst rest. simpl in Hr. apply andb_true_iff in Hu' as [Hc _]. congruence.
  - subst rest'. simpl in Hr'. apply andb_true_iff in Hu as [Hc _]. congruence.
  - injection E as -> E.
    apply andb_true_iff in Hu as [_ Hu]. apply andb_true_iff in Hu' as [_ Hu'].
    destruct (IH u' Hu Hu' Hr Hr' E) as [-> ->]. auto.
Qed.

Lemma reads_unique (r u rest u' rest' : str) :
  reads r u rest -> reads r u' rest' -> u = u' /\ rest = rest'.
Proof.
  intros (E & Hq & Hr) (E' & Hq' & Hr').
  apply word_run_unique; auto using quality_seq_words. congruence.
Qed.

Lemma last_char_word (p : option char) (u : str) :
  forallb is_word u = true -> u <> [] \/ word_before p = true ->
  word_before (last_char p u) = true.
Proof.
  revert p. induction u as [|c u IH]; intros p Hu H; simpl in *.
  - destruct H as [H | H]; [congruence | assumption].
  - apply andb_true_iff in Hu as [Hc Hu]. apply IH; [assumption |]. now right.
Qed.

Lemma reads_head_word (r u rest : str) :
  reads r u rest -> u <> [] -> word_after r = true.
Proof.
  intros (-> & Hq & _) Hne. destruct u as [|c u]; [congruence |].
  apply quality_seq_words in Hq. simpl in *.
  now apply andb_true_iff in Hq as [Hc _].
Qed.

Lemma reads_head_quality (r u rest : str) :
  reads r u rest -> u <> [] ->
  match r with c :: _ => quality_char c = true | [] => False end.
Proof.
  intros (-> & Hq & _) Hne. destruct u as [|c u]; [congruence |].
  apply quality_seq_chars in Hq. simpl in *.
  now apply andb_true_iff in Hq as [Hc _].
Qed.

(** ** The ends found by the loop of the group *)

Lemma star_reads_in (p : option char) (r u rest : str) :
  reads r u rest -> u <> [] \/ word_before p = true ->
  In (last_char p u, rest) (star_loop (ends quality) (length r) p r) /\
  bounded (last_char p u, rest) = true.
Proof.
  intros (-> & Hq & Hr) H. split.
  - now apply star_quality_complete.
  - unfold bounded, at_boundary. cbn [fst snd].
    rewrite Hr, (last_char_word p u); auto using quality_seq_words.
Qed.

Lemma star_bounded_reads (n : nat) (p : option char) (r : str) (q : pos) :
  In q (star_loop (ends quality) n p r) -> bounded q = true ->
  (length (snd q) < length r)%nat \/ word_before p = true ->
  exists u, reads r u (snd q) /\ fst q = last_char p u /\
            ((length (snd q) < length r)%nat -> u <> []).
Proof.
  intros Hin Hb H.
  apply star_quality_sound in Hin as (u & E & Hp & Hq).
  exists u. split; [| split; [assumption |]].
  - split; [assumption |]. split; [assumption |].
    unfold bounded, at_boundary in Hb. rewrite Hp in Hb.
    rewrite (last_char_word p u) in Hb; auto using quality_seq_words.
    + now destruct (word_after (snd q)).
    + destruct H as [H | H]; [| now right]. left. intros ->. simpl in E.
      rewrite E in H. lia.
  - intros Hlt ->. simpl in E. rewrite E in Hlt. lia.
Qed.

Lemma filter_head_in (P : pos -> bool) (l l' : list pos) (q : pos) :
  filter P l = q :: l' -> In q l /\ P q = true.
Proof.
  intros E. apply (filter_In P q l). rewrite E. now left.
Qed.

Lemma filter_nonempty (P : pos -> bool) (l : list pos) (a : pos) :
  In a l -> P a = true -> exists q l', filter P l = q :: l'.
Proof.
  intros Hin Ha. destruct (filter P l) as [|q l'] eqn:E; [| now eauto].
  assert (H : In a (filter P l)) by now apply filter_In.
  rewrite E in H. contradiction.
Qed.

Lemma filter_empty (P : pos -> bool) (l : list pos) :
  (forall q, In q l -> P q = true -> False) -> filter P l = [].
Proof.
  intros H. destruct (filter P l) as [|q l'] eqn:E; [reflexivity |].
  apply filter_head_in in E as [H1 H2]. now destruct (H q).
Qed.

(** After a character that no quality word begins with, the loop of the
    group can only be left at once. *)
Lemma star_stuck (p : option char) (c : char) (r : str) :
  quality_char c = false ->
  exists l, star_loop (ends quality) (length (c :: r)) p (c :: r)
            = l ++ [(p, c :: r)] /\
            filter bounded l = [].
Proof.
  intros Hc.
  destruct (star_loop_split (ends quality) (length (c :: r)) p (c :: r))
    as (l & E & Hl); [apply ends_sound |].
  exists l. split; [assumption |]. apply filter_empty. intros q Hin Hb.
  assert (Hin' : In q (star_loop (ends quality) (length (c :: r)) p (c :: r))).
  { rewrite E. apply in_or_app. now left. }
  destruct (star_bounded_reads _ p (c :: r) q Hin' Hb) as (u & Hu & _ & Hne).
  { left. now apply Hl. }
  pose proof (reads_head_quality _ _ _ Hu (Hne (Hl q Hin))) as Hq.
  simpl in Hq. congruence.
Qed.

(** ** The match at a position, declaratively *)

Lemma boundary_before_letter (prev : option char) (x : char) (r : str) :
  is_AG x = true -> at_boundary prev (x :: r) = negb (word_before prev).
Proof.
  intros Hx. unfold at_boundary. cbn [word_after]. rewrite (is_AG_word x Hx).
  now destruct (word_before prev).
Qed.

Lemma match_at_chord (prev : option char) (x : char) (r : str) :
  word_before prev = false -> is_AG x = true ->
  match_at chord_pattern prev (x :: r) =
  match filter bounded (cands x r) with
  | q :: _ => Some (S (length r) - length (snd q))%nat
  | [] => None
  end.
Proof.
  intros Hp Hx. unfold match_at.
  rewrite ends_chord_pattern, boundary_before_letter, Hp, Hx by assumption.
  reflexivity.
Qed.

Lemma match_at_chord_none (prev : option char) (s : str) :
  word_before prev = true \/ begins_AG s = false ->
  match_at chord_pattern prev s = None.
Proof.
  intros H. unfold match_at. destruct s as [|x r].
  - now rewrite ends_chord_pattern_nil.
  - rewrite ends_chord_pattern. destruct (is_AG x) eqn:Hx.
    + rewrite boundary_before_letter by assumption.
      destruct H as [-> | H]; [reflexivity | simpl in H; congruence].
    + now rewrite andb_false_r.
Qed.

Lemma cands_plain (x : char) (r : str) :
  match r with y :: _ => is_sharp_b y = false | [] => True end ->
  cands x r = star_loop (ends quality) (length r) (Some x) r.
Proof.
  intros H. unfold cands. destruct r as [|y r]; [reflexivity |]. now rewrite H.
Qed.

Lemma cands_sign (x y : char) (r : str) :
  is_sharp_b y = true ->
  cands x (y :: r) =
  star_loop (ends quality) (length r) (Some y) r
  ++ star_loop (ends quality) (length (y :: r)) (Some x) (y :: r).
Proof. intros H. unfold cands. now rewrite H. Qed.

Lemma reads_length (r u rest : str) :
  reads r u rest -> length r = (length u + length rest)%nat.
Proof. intros (-> & _). apply length_app. Qed.

Lemma sharp_not_word : is_word 35%N = false.
Proof. reflexivity. Qed.

Lemma flat_sign_word : is_word 98%N = true.
Proof. reflexivity. Qed.

(** The matcher finds the match that [chord_at] describes. *)
Lemma chord_at_match (prev : option char) (s : str) (k : nat) :
  chord_at prev s k -> match_at chord_pattern prev s = Some k.
Proof.
  intros H.
  destruct H as [x r u rest Hp Hx Hr Hu | x r u rest Hp Hx Hu
                | x r u rest Hp Hx Hne Hu | x r Hp Hx Hw Hno | x r Hp Hx Hw];
    rewrite match_at_chord by assumption.
  - rewrite cands_plain by assumption.
    destruct (star_reads_in (Some x) r u rest Hu) as [Hin Hb].
    { right. now apply is_AG_word. }
    destruct (filter_nonempty _ _ _ Hin Hb) as (q & l' & E). rewrite E.
    apply filter_head_in in E as [Hq1 Hq2].
    destruct (star_bounded_reads _ _ _ _ Hq1 Hq2) as (u' & Hu' & _).
    { right. now apply is_AG_word. }
    destruct (reads_unique _ _ _ _ _ Hu Hu') as [_ <-].
    f_equal. rewrite (reads_length _ _ _ Hu). lia.
  - rewrite cands_sign, filter_app by reflexivity.
    destruct (star_reads_in (Some 98%N) r u rest Hu) as [Hin Hb].
    { now right. }
    destruct (filter_nonempty _ _ _ Hin Hb) as (q & l' & E). rewrite E.
    cbn [app].
    apply filter_head_in in E as [Hq1 Hq2].
    destruct (star_bounded_reads _ _ _ _ Hq1 Hq2) as (u' & Hu' & _).
    { now right. }
    destruct (reads_unique _ _ _ _ _ Hu Hu') as [_ <-].
    f_equal. cbn [length]. rewrite (reads_length _ _ _ Hu). lia.
  - rewrite cands_sign, filter_app by reflexivity.
    destruct (star_loop_split (ends quality) (length r) (Some 35%N) r)
      as (l & E & Hl); [apply ends_sound |].
    destruct (star_reads_in (Some 35%N) r u rest Hu) as [Hin Hb].
    { now left. }
    rewrite E in Hin |- *. apply in_app_or in Hin as [Hin | [Hin | []]].
    2: { injection Hin as _ Hin. destruct Hu as (Hu & _). rewrite <- Hin in Hu.
         apply (f_equal (@length char)) in Hu. rewrite length_app in Hu.
         destruct u; [congruence | simpl in Hu; lia]. }
    destruct (filter_nonempty _ _ _ Hin Hb) as (q & l' & F).
    rewrite filter_app, F. cbn [app].
    apply filter_head_in in F as [Hq1 Hq2].
    assert (Hq1' : In q (star_loop (ends quality) (length r) (Some 35%N) r)).
    { rewrite E. apply in_or_app. now left. }
    destruct (star_bounded_reads _ _ _ _ Hq1' Hq2) as (u' & Hu' & _).
    { left. now apply Hl. }
    destruct (reads_unique _ _ _ _ _ Hu Hu') as [_ <-].
    f_equal. cbn [length]. rewrite (reads_length _ _ _ Hu). lia.
  - rewrite cands_sign, filter_app by reflexivity.
    destruct (star_loop_split (ends quality) (length r) (Some 35%N) r)
      as (l & E & Hl); [apply ends_sound |].
    rewrite E, filter_app.
    replace (filter bounded l) with (@nil pos).
    2: { symmetry. apply filter_empty. intros q Hin Hb.
         assert (Hin' : In q (star_loop (ends quality) (length r) (Some 35%N) r)).
         { rewrite E. apply in_or_app. now left. }
         destruct (star_bounded_reads _ _ _ _ Hin' Hb) as (u' & Hu' & _).
         { left. now apply Hl. }
         exact (Hno _ _ Hu'). }
    cbn [app filter]. unfold bounded at 1, at_boundary. cbn [fst snd word_before].
    rewrite sharp_not_word, Hw. cbn [xorb app snd length]. f_equal. lia.
  - rewrite cands_sign, filter_app by reflexivity.
    destruct (star_loop_split (ends quality) (length r) (Some 35%N) r)
      as (l & E & Hl); [apply ends_sound |].
    rewrite E, filter_app.
    replace (filter bounded l) with (@nil pos).
    2: { symmetry. apply filter_empty. intros q Hin Hb.
         assert (Hin' : In q (star_loop (ends quality) (length r) (Some 35%N) r)).
         { rewrite E. apply in_or_app. now left. }
         destruct (star_bounded_reads _ _ _ _ Hin' Hb) as (u' & Hu' & _ & Hne).
         { left. now apply Hl. }
         pose proof (reads_head_word _ _ _ Hu' (Hne (Hl q Hin))). congruence. }
    cbn [app filter]. unfold bounded at 1, at_boundary. cbn [fst snd word_before].
    rewrite sharp_not_word, Hw. cbn [xorb app].
    destruct (star_stuck (Some x) 35%N r) as (l2 & E2 & F2); [reflexivity |].
    rewrite E2, filter_app, F2. cbn [app filter].
    unfold bounded, at_boundary. cbn [fst snd word_before word_after].
    rewrite sharp_not_word, (is_AG_word x Hx). cbn [xorb snd length]. f_equal. lia.
Qed.

Lemma sign_cases (y : char) : is_sharp_b y = true -> y = 35%N \/ y = 98%N.
Proof. intros H. char_cases. Qed.

(** Every match of the matcher is one that [chord_at] describes. *)
Lemma match_chord_at (prev : option char) (s : str) (k : nat) :
  match_at chord_pattern prev s = Some k -> chord_at prev s k.
Proof.
  intros H.
  destruct (word_before prev) eqn:Hp.
  { rewrite match_at_chord_none in H by now left. discriminate. }
  destruct (begins_AG s) eqn:Hx.
  2: { rewrite match_at_chord_none in H by now right. discriminate. }
  destruct s as [|x r]; [discriminate |]. cbn [begins_AG] in Hx.
  rewrite match_at_chord in H by assumption.
  assert (Hxw : word_before (Some x) = true) by now apply is_AG_word.
  assert (Hplain : match r with y :: _ => is_sharp_b y = false | [] => True end ->
                   chord_at prev (x :: r) k).
  { intros Hr. rewrite cands_plain in H by exact Hr.
    destruct (filter bounded _) as [|q l'] eqn:E; [discriminate |].
    apply filter_head_in in E as [Hq1 Hq2].
    destruct (star_bounded_reads _ _ _ _ Hq1 Hq2) as (u & Hu & _); [now right |].
    pose proof (reads_length _ _ _ Hu) as L.
    assert (K : Some k = Some (1 + length u)%nat) by (rewrite <- H; f_equal; lia).
    injection K as ->.
    now apply chord_plain with (rest := snd q). }
  destruct r as [|y r]; [now apply Hplain |].
  destruct (is_sharp_b y) eqn:Hy; [clear Hplain | now apply Hplain].
  rewrite cands_sign, filter_app in H by assumption.
  destruct (sign_cases y Hy) as [-> | ->].
  - (* a sharp sign *)
    destruct (star_loop_split (ends quality) (length r) (Some 35%N) r)
      as (l & E & Hl); [apply ends_sound |].
    rewrite E, filter_app in H.
    destruct (filter bounded l) as [|q l'] eqn:F.
    + assert (Hno : forall u rest, u <> [] -> ~ reads r u rest).
      { intros u rest Hne Hu.
        destruct (star_reads_in (Some 35%N) r u rest Hu) as [Hin Hb]; [now left |].
        rewrite E in Hin. apply in_app_or in Hin as [Hin | [Hin | []]].
        - assert (G : In (last_char (Some 35%N) u, rest) (filter bounded l))
            by now apply filter_In.
          rewrite F in G. contradiction.
        - injection Hin as _ Hin. pose proof (reads_length _ _ _ Hu) as L.
          rewrite <- Hin in L. destruct u; [congruence | simpl in L; lia]. }
      cbn [app filter] in H. unfold bounded at 1, at_boundary in H.
      cbn [fst snd word_before] in H. rewrite sharp_not_word in H.
      destruct (word_after r) eqn:Hw; cbn [xorb app] in H.
      * assert (K : Some k = Some 2%nat)
          by (rewrite <- H; cbn [snd length]; f_equal; lia).
        injection K as ->.
        apply chord_sharp_bare; auto.
        intros u rest Hu. destruct u as [|c u].
        -- destruct Hu as (-> & _ & Hr). simpl in Hw. congruence.
        -- now apply (Hno (c :: u) rest).
      * destruct (star_stuck (Some x) 35%N r) as (l2 & E2 & F2); [reflexivity |].
        rewrite E2, filter_app, F2 in H. cbn [app filter] in H.
        unfold bounded, at_boundary in H. cbn [fst snd word_before word_after] in H.
        rewrite sharp_not_word, (is_AG_word x Hx) in H. cbn [xorb] in H.
        assert (K : Some k = Some 1%nat)
          by (rewrite <- H; cbn [snd length]; f_equal; lia).
        injection K as ->.
        now apply chord_letter_sharp.
    + cbn [app] in H.
      apply filter_head_in in F as [Hq1 Hq2].
      assert (Hq1' : In q (star_loop (ends quality) (length r) (Some 35%N) r)).
      { rewrite E. apply in_or_app. now left. }
      destruct (star_bounded_reads _ _ _ _ Hq1' Hq2) as (u & Hu & _ & Hne).
      { left. now apply Hl. }
      pose proof (reads_length _ _ _ Hu) as L.
      assert (K : Some k = Some (2 + length u)%nat)
        by (rewrite <- H; cbn [length]; f_equal; lia).
      injection K as ->.
      apply chord_sharp with (rest := snd q); auto.
  - (* a flat sign *)
    destruct (star_stuck (Some x) 98%N r) as (l2 & E2 & F2); [reflexivity |].
    rewrite E2, filter_app, F2 in H. cbn [app filter] in H.
    unfold bounded at 2, at_boundary in H.
    cbn [fst snd word_before word_after] in H.
    rewrite flat_sign_word, (is_AG_word x Hx) in H. cbn [xorb] in H.
    rewrite app_nil_r in H.
    destruct (filter bounded _) as [|q l'] eqn:E; [discriminate |].
    apply filter_head_in in E as [Hq1 Hq2].
    destruct (star_bounded_reads _ _ _ _ Hq1 Hq2) as (u & Hu & _); [now right |].
    pose proof (reads_length _ _ _ Hu) as L.
    assert (K : Some k = Some (2 + length u)%nat)
      by (rewrite <- H; cbn [length]; f_equal; lia).
    injection K as ->.
    now apply chord_flat with (rest := snd q).
Qed.

(** The matcher and [chord_at] agree. *)
Lemma match_at_chord_iff (prev : option char) (s : str) (k : nat) :
  match_at chord_pattern prev s = Some k <-> chord_at prev s k.
Proof. split; [apply match_chord_at | apply chord_at_match]. Qed.

(** ** The scan *)

Lemma scan_skip (r : regex) (v rest : str) (prev : option char) :
  scan r (length v) prev (v ++ rest) = scan r 0 (last_char prev v) rest.
Proof.
  revert prev. induction v as [|c v IH]; intros prev; [reflexivity |].
  cbn [length app scan last_char].
  destruct v as [|c' v]; [reflexivity |]. apply IH.
Qed.

Lemma firstn_exact (v rest : str) : firstn (length v) (v ++ rest) = v.
Proof. induction v as [|c v IH]; simpl; [reflexivity | now rewrite IH]. Qed.

Lemma scan_literal (r : regex) (prev : option char) (c : char) (s : str) :
  match_at r prev (c :: s) = None ->
  scan r 0 prev (c :: s) = Literal c :: scan r 0 (Some c) s.
Proof. intros H. cbn [scan]. now rewrite H. Qed.

Lemma scan_chord (r : regex) (prev : option char) (tok rest : str) :
  tok <> [] -> match_at r prev (tok ++ rest) = Some (length tok) ->
  scan r 0 prev (tok ++ rest) = Chord tok :: scan r 0 (last_char prev tok) rest.
Proof.
  intros Hne H. destruct tok as [|c tok]; [congruence |].
  cbn [app scan]. cbn [app] in H. rewrite H. cbn [length].
  rewrite scan_skip. f_equal. f_equal.
  apply (firstn_exact (c :: tok) rest).
Qed.

Lemma chord_at_bounds (prev : option char) (s : str) (k : nat) :
  chord_at prev s k -> (1 <= k <= length s)%nat.
Proof.
  intros H. split.
  - destruct H; lia.
  - apply chord_at_match in H. now apply match_at_le in H.
Qed.

(** Induction along the scan of the chord pattern. *)
Lemma scan_induction (P : option char -> str -> Prop) :
  (forall prev, P prev []) ->
  (forall prev c s,
     match_at chord_pattern prev (c :: s) = None -> P (Some c) s -> P prev (c :: s)) ->
  (forall prev tok rest,
     tok <> [] -> chord_at prev (tok ++ rest) (length tok) ->
     P (last_char prev tok) rest -> P prev (tok ++ rest)) ->
  forall prev s, P prev s.
Proof.
  intros Hnil Hlit Htok prev s.
  remember (length s) as n eqn:En.
  revert prev s En. induction n as [n IH] using lt_wf_ind. intros prev s En.
  destruct s as [|c s]; [apply Hnil |].
  destruct (match_at chord_pattern prev (c :: s)) as [k |] eqn:E.
  - apply match_chord_at in E. pose proof (chord_at_bounds _ _ _ E) as [K1 K2].
    assert (L : length (firstn k (c :: s)) = k) by (apply firstn_length_le; lia).
    assert (R : (length (skipn k (c :: s)) < n)%nat)
      by (rewrite length_skipn; lia).
    pose proof (firstn_skipn k (c :: s)) as Es.
    set (tok := firstn k (c :: s)) in *. set (rest := skipn k (c :: s)) in *.
    rewrite <- Es in E |- *.
    apply Htok.
    + intros F. rewrite F in L. simpl in L. lia.
    + now rewrite L.
    + now apply (IH (length rest)).
  - apply Hlit; [assumption |]. apply (IH (length s)); [| reflexivity].
    subst n. simpl. lia.
Qed.

Lemma spans_literal (prev : option char) (c : char) (s : str) :
  match_at chord_pattern prev (c :: s) = None ->
  scan chord_pattern 0 prev (c :: s) = Literal c :: scan chord_pattern 0 (Some c) s.
Proof. apply scan_literal. Qed.

Lemma spans_chord (prev : option char) (tok rest : str) :
  tok <> [] -> chord_at prev (tok ++ rest) (length tok) ->
  scan chord_pattern 0 prev (tok ++ rest)
  = Chord tok :: scan chord_pattern 0 (last_char prev tok) rest.
Proof. intros Hne H. apply scan_chord; [assumption |]. now apply chord_at_match. Qed.

(** The spans of a text make up the text. *)
Lemma spans_text (prev : option char) (s : str) :
  concat (map span_text (scan chord_pattern 0 prev s)) = s.
Proof.
  revert prev s. apply scan_induction.
  - reflexivity.
  - intros prev c s H IH. rewrite spans_literal by assumption. simpl. now rewrite IH.
  - intros prev tok rest Hne H IH. rewrite spans_chord by assumption.
    simpl. now rewrite IH.
Qed.

(** ** [re.sub] with a replacement that does not raise *)

Lemma collect_map {A B : Type} (f : A -> result B) (g : A -> B) (l : list A) :
  (forall a, In a l -> f a = Ok (g a)) -> collect f l = Ok (map g l).
Proof.
  induction l as [|a l IH]; intros H; simpl; [reflexivity |].
  rewrite (H a) by now left. simpl.
  rewrite IH; [reflexivity |]. intros b Hb. apply H. now right.
Qed.

Lemma in_chords (tok : str) (l : list span) : In tok (chords l) <-> In (Chord tok) l.
Proof.
  induction l as [|[c | t] l IH]; simpl.
  - tauto.
  - rewrite IH. split; [now right | intros [H | H]; [discriminate | assumption]].
  - rewrite IH. split; (intros [H | H]; [left; congruence | now right]).
Qed.

Lemma re_sub_total (repl : str -> result str) (g : str -> str) (text : str) :
  (forall tok, In tok (chord_tokens text) -> repl tok = Ok (g tok)) ->
  re_sub chord_pattern repl text
  = Ok (concat (map (rewrite_span g) (chord_spans text))).
Proof.
  intros H. unfold re_sub.
  rewrite (collect_map _ (rewrite_span g)); [reflexivity |].
  intros [c | tok] Hin; [reflexivity |]. apply H. now apply in_chords.
Qed.

(** ** A chord token and what follows it *)

Lemma app_same_length (v v' rest rest' : str) :
  v ++ rest = v' ++ rest' -> length v = length v' -> v = v' /\ rest = rest'.
Proof.
  revert v'. induction v as [|c v IH]; intros [|c' v'] E L; simpl in *;
    try discriminate; auto.
  injection E as -> E. injection L as L. destruct (IH v' E L) as [-> ->]. auto.
Qed.

Lemma chord_at_view (prev : option char) (tok rest : str) :
  chord_at prev (tok ++ rest) (length tok) ->
  word_before prev = false /\ chord_view rest tok.
Proof.
  intros H. remember (tok ++ rest) as s eqn:Es. remember (length tok) as k eqn:Ek.
  destruct H as [x r u rest0 Hp Hx Hr Hu | x r u rest0 Hp Hx Hu
                | x r u rest0 Hp Hx Hne Hu | x r Hp Hx Hw Hno | x r Hp Hx Hw];
    (split; [assumption |]).
  - destruct Hu as (-> & Hq & Hw).
    destruct (app_same_length tok (x :: u) rest rest0) as [-> ->];
      [now rewrite <- Es | now rewrite <- Ek |].
    apply view_plain; auto. intros ->. simpl in Hr.
    destruct rest0 as [|y rest0]; [exact I |]. intros ->. discriminate.
  - destruct Hu as (-> & Hq & Hw).
    destruct (app_same_length tok (x :: 98%N :: u) rest rest0) as [-> ->];
      [now rewrite <- Es | now rewrite <- Ek |].
    now apply view_flat.
  - destruct Hu as (-> & Hq & Hw).
    destruct (app_same_length tok (x :: 35%N :: u) rest rest0) as [-> ->];
      [now rewrite <- Es | now rewrite <- Ek |].
    now apply view_sharp.
  - destruct (app_same_length tok [x; 35%N] rest r) as [-> ->];
      [now rewrite <- Es | now rewrite <- Ek |].
    now apply view_sharp_bare.
  - destruct (app_same_length tok [x] rest (35%N :: r)) as [-> ->];
      [now rewrite <- Es | now rewrite <- Ek |].
    now apply view_letter_sharp with (r := r).
Qed.

Lemma view_chord_at (prev : option char) (tok rest : str) :
  word_before prev = false -> chord_view rest tok ->
  chord_at prev (tok ++ rest) (length tok).
Proof.
  intros Hp H.
  destruct H as [x u Hx Hq Hw Hr | x u Hx Hq Hw | x u Hx Hne Hq Hw
                | x Hx Hw Hno | x r Hx -> Hw].
  - apply (chord_plain prev x (u ++ rest) u rest); auto.
    + destruct u as [|c u].
      * specialize (Hr eq_refl). simpl. destruct rest as [|y rest]; [exact I |].
        destruct (is_sharp_b y) eqn:Hy; [| reflexivity].
        destruct (sign_cases y Hy) as [-> | ->]; [congruence |].
        simpl in Hw. rewrite flat_sign_word in Hw. discriminate.
      * simpl. apply quality_char_not_sign. apply quality_seq_chars in Hq.
        simpl in Hq. now apply andb_true_iff in Hq as [Hc _].
    + now split.
  - apply (chord_flat prev x (u ++ rest) u rest); auto. now split.
  - apply (chord_sharp prev x (u ++ rest) u rest); auto. now split.
  - now apply (chord_sharp_bare prev x rest).
  - now apply (chord_letter_sharp prev x r).
Qed.

(** The root and the quality sequence of a chord token. *)
Lemma chord_view_shape (rest tok : str) :
  chord_view rest tok ->
  exists root u, tok = root ++ u /\ root_of tok = Some root /\ quality_seq u /\
                 begins_AG root = true.
Proof.
  intros H.
  destruct H as [x u Hx Hq Hw Hr | x u Hx Hq Hw | x u Hx Hne Hq Hw
                | x Hx Hw Hno | x r Hx -> Hw].
  - exists [x], u. repeat split; auto. simpl. rewrite Hx.
    destruct u as [|c u]; [reflexivity |].
    apply quality_seq_chars in Hq. simpl in Hq.
    apply andb_true_iff in Hq as [Hc _].
    now rewrite (quality_char_not_sign c Hc).
  - exists [x; 98%N], u. repeat split; auto. simpl. now rewrite Hx.
  - exists [x; 35%N], u. repeat split; auto. simpl. now rewrite Hx.
  - exists [x; 35%N], []. repeat split; auto; [| constructor]. simpl. now rewrite Hx.
  - exists [x], []. repeat split; auto; [| constructor]. simpl. now rewrite Hx.
Qed.

(** ** Normalisation and a quality sequence *)

Lemma replace_pair_app (a b : char) (new s1 s2 : str) :
  match s2 with y :: _ => y <> b | [] => True end ->
  replace_from [a; b] new 0 (s1 ++ s2)
  = replace_from [a; b] new 0 s1 ++ replace_from [a; b] new 0 s2.
Proof.
  intros H. induction s1 as [| x | x y t IHt IHyt] using str_pair_ind.
  - reflexivity.
  - rewrite replace_pair_one. destruct s2 as [|y t]; [apply replace_pair_one |].
    cbn [app]. rewrite replace_pair_step.
    replace (char_eqb b y) with false; [now rewrite andb_false_r |].
    symmetry. apply N.eqb_neq. congruence.
  - cbn [app]. rewrite !replace_pair_step.
    destruct (char_eqb a x && char_eqb b y).
    + now rewrite IHt, app_assoc.
    + cbn [app] in IHyt. now rewrite IHyt.
Qed.

Lemma replace_pair_suffix (a c d : char) (s1 u : str) :
  char_in 98%N u = false ->
  replace_from [a; 98%N] [c; d] 0 (s1 ++ u)
  = replace_from [a; 98%N] [c; d] 0 s1 ++ u.
Proof.
  intros H. rewrite replace_pair_app.
  - f_equal. now apply replace_absent, has_pair_absent.
  - destruct u as [|y u]; [exact I |]. unfold char_in in H. cbn [existsb] in H.
    apply orb_false_iff in H as [H _]. apply N.eqb_neq in H. congruence.
Qed.

Lemma normalize_chord_app (s1 u : str) :
  char_in 98%N u = false -> normalize_chord (s1 ++ u) = normalize_chord s1 ++ u.
Proof.
  intros H. rewrite !normalize_chord_passes.
  cbv [lit map list_ascii_of_string N_of_ascii N_of_digits N.add N.mul].
  now rewrite !replace_pair_suffix.
Qed.

Lemma quality_char_not_b (c : char) : quality_char c = true -> c <> 98%N.
Proof. intros H. char_cases. Qed.

Lemma quality_seq_no_b (u : str) : quality_seq u -> char_in 98%N u = false.
Proof.
  intros H. apply quality_seq_chars in H. unfold char_in.
  induction u as [|c u IH]; [reflexivity |].
  cbn [forallb existsb] in *. apply andb_true_iff in H as [Hc H].
  rewrite (IH H), orb_false_r. apply N.eqb_neq.
  apply quality_char_not_b in Hc. congruence.
Qed.

(** ** The rewriting of a chord token *)

Lemma AG_cases (x : char) :
  is_AG x = true ->
  (x = 65 \/ x = 66 \/ x = 67 \/ x = 68 \/ x = 69 \/ x = 70 \/ x = 71)%N.
Proof. intros H. char_cases. Qed.

Lemma root_before_quality (r1 u : str) :
  quality_seq u -> root_of r1 = Some r1 -> root_of (r1 ++ u) = Some r1.
Proof.
  intros Hq H. destruct r1 as [|x [|y r1]]; simpl in *; try discriminate.
  - destruct (is_AG x); [| discriminate].
    destruct u as [|c u]; [reflexivity |].
    apply quality_seq_chars in Hq. simpl in Hq.
    apply andb_true_iff in Hq as [Hc _].
    now rewrite (quality_char_not_sign c Hc).
  - destruct (is_AG x); [| discriminate].
    destruct (is_sharp_b y); injection H as <-; reflexivity.
Qed.

(** The root of a chord after [normalize_chord]: a root again, left as it
    is by a second normalisation, and a name of [NOTES] if it was changed. *)
Lemma normalize_root (root : str) :
  (exists u, root_of (root ++ u) = Some root) \/ root_of root = Some root ->
  root_of (normalize_chord root) = Some (normalize_chord root) /\
  normalize_chord (normalize_chord root) = normalize_chord root /\
  (normalize_chord root = root \/ In (normalize_chord root) NOTES).
Proof.
  intros H.
  assert (R : root_of root = Some root).
  { destruct H as [(u & H) | H]; [| assumption].
    destruct root as [|x [|y root]]; simpl in *.
    - exfalso. destruct u as [|x [|y u]]; simpl in H; try discriminate;
        destruct (is_AG x); try discriminate; destruct (is_sharp_b y); discriminate.
    - destruct (is_AG x); [reflexivity | discriminate].
    - assumption. }
  clear H.
  split; [| split; [apply normalize_chord_fixed, normalize_chord_flat_free |]].
  - destruct root as [|x [|y root]]; simpl in R; try discriminate;
      destruct (is_AG x) eqn:Hx; try discriminate.
    + destruct (AG_cases x Hx) as [-> | [-> | [-> | [-> | [-> | [-> | ->]]]]]];
        reflexivity.
    + destruct (is_sharp_b y) eqn:Hy; [| discriminate R]. injection R as <-.
      destruct (AG_cases x Hx) as [-> | [-> | [-> | [-> | [-> | [-> | ->]]]]]];
        destruct (sign_cases y Hy) as [-> | ->]; reflexivity.
  - destruct root as [|x [|y root]]; simpl in R; try discriminate;
      destruct (is_AG x) eqn:Hx; try discriminate.
    + left. destruct (AG_cases x Hx) as [-> | [-> | [-> | [-> | [-> | [-> | ->]]]]]];
        reflexivity.
    + destruct (is_sharp_b y) eqn:Hy; [| discriminate R]. injection R as <-.
      destruct (AG_cases x Hx) as [-> | [-> | [-> | [-> | [-> | [-> | ->]]]]]];
        destruct (sign_cases y Hy) as [-> | ->];
        first [left; reflexivity | right; apply str_in_In; reflexivity].
Qed.

Lemma list_index_absent (x : str) :
  str_in x NOTES = false -> exists e, list_index NOTES x = Raise e.
Proof.
  unfold list_index, str_in. generalize 0%Z.
  induction NOTES as [|y l IH]; intros i H; simpl in *; [now eexists |].
  apply orb_false_iff in H as [H1 H2].
  replace (str_eqb y x) with false.
  - now apply IH.
  - destruct (str_eqb y x) eqn:E; [| reflexivity].
    apply str_eqb_eq in E. subst y. now rewrite str_eqb_refl in H1.
Qed.

Lemma skipn_exact (v rest : str) : skipn (length v) (v ++ rest) = rest.
Proof. induction v as [|c v IH]; simpl; auto. Qed.

Lemma root_of_solid (tok root : str) : root_of tok = Some root -> solid root.
Proof.
  destruct tok as [|x [|y tok]]; simpl; try discriminate;
    destruct (is_AG x) eqn:Hx; try discriminate.
  - intros H. injection H as <-. split; [discriminate |].
    simpl. unfold nonspace. now rewrite (is_AG_not_space x Hx).
  - destruct (is_sharp_b y) eqn:Hy; intros H; injection H as <-;
      (split; [discriminate |]); simpl; unfold nonspace;
      rewrite (is_AG_not_space x Hx); [| reflexivity].
    destruct (sign_cases y Hy) as [-> | ->]; reflexivity.
Qed.

(** What [transpose_chord] makes of a root followed by a quality sequence:
    the root is normalised and moved, the quality sequence is kept. *)
Lemma transpose_chord_shape (root u : str) (semitones : Z) :
  root_of (root ++ u) = Some root -> quality_seq u ->
  transpose_chord (root ++ u) semitones
  = Ok (shifted semitones (normalize_chord root) ++ u).
Proof.
  intros R Hq. rewrite transpose_chord_eq.
  replace (forallb isspace (root ++ u)) with false.
  2: { pose proof (root_of_solid _ _ R) as [Hne Hs].
       destruct root as [|x root]; [congruence |]. simpl in *.
       apply andb_true_iff in Hs as [Hx _]. unfold nonspace in Hx.
       apply negb_true_iff in Hx. now rewrite Hx. }
  cbv zeta. rewrite normalize_chord_app by now apply quality_seq_no_b.
  destruct (normalize_root root) as (R1 & R2 & _); [left; now exists u |].
  rewrite (root_before_quality _ u Hq R1), skipn_exact.
  replace (if char_in 98%N (normalize_chord root)
           then normalize_chord (normalize_chord root) else normalize_chord root)
    with (normalize_chord root) by (rewrite R2; now destruct (char_in _ _)).
  unfold shifted.
  destruct (str_in (normalize_chord root) NOTES) eqn:E; cbn [negb].
  - apply str_in_In in E. destruct (list_index_NOTES _ E) as (i & -> & _).
    cbn [bind].
    destruct (list_get_NOTES ((i + semitones) mod 12)%Z) as (x & -> & _).
    { apply Z.mod_pos_bound. lia. }
    reflexivity.
  - destruct (list_index_absent _ E) as (e & ->). reflexivity.
Qed.

Lemma transpose_chord_token (rest tok : str) (semitones : Z) :
  chord_view rest tok ->
  exists root u,
    tok = root ++ u /\ root_of tok = Some root /\ quality_seq u /\
    transpose_chord tok semitones
    = Ok (shifted semitones (normalize_chord root) ++ u).
Proof.
  intros H. destruct (chord_view_shape rest tok H) as (root & u & -> & R & Hq & Hb).
  exists root, u. repeat split; auto. now apply transpose_chord_shape.
Qed.

(** ** The whole song *)

Lemma transpose_chord_rewritten (tok : str) (semitones : Z) :
  transpose_chord tok semitones = Ok (rewritten semitones tok).
Proof.
  unfold rewritten. destruct (transpose_chord_ok tok semitones) as (out & ->).
  reflexivity.
Qed.

Lemma interval_ok (a b : str) :
  In a NOTES -> In b NOTES ->
  exists ia ib, list_index NOTES a = Ok ia /\ list_index NOTES b = Ok ib /\
                interval a b = Ok ((ib - ia) mod 12)%Z.
Proof.
  intros Ha Hb.
  destruct (list_index_NOTES a Ha) as (ia & Ea & _).
  destruct (list_index_NOTES b Hb) as (ib & Eb & _).
  exists ia, ib. unfold interval. now rewrite Ea, Eb.
Qed.

(** With two keys that normalise to names of [NOTES], the song is the text
    with each chord token rewritten by [transpose_chord]. *)
Lemma transpose_song_valid (text k1 k2 : str) :
  In (normalize_chord k1) NOTES -> In (normalize_chord k2) NOTES ->
  exists n, interval (normalize_chord k1) (normalize_chord k2) = Ok n /\
            transpose_song text k1 k2
            = Ok (concat (map (rewrite_span (rewritten n)) (chord_spans text))).
Proof.
  intros H1 H2. destruct (interval_ok _ _ H1 H2) as (i1 & i2 & _ & _ & E).
  eexists. split; [exact E |].
  unfold transpose_song. apply str_in_In in H1, H2. rewrite H1, H2, E.
  cbn [negb orb bind]. apply re_sub_total.
  intros tok _. apply transpose_chord_rewritten.
Qed.

Lemma rewrite_spans_same (g : str -> str) (l : list span) :
  (forall tok, In tok (chords l) -> g tok = tok) ->
  concat (map (rewrite_span g) l) = concat (map span_text l).
Proof.
  induction l as [|[c | tok] l IH]; intros H; simpl in *.
  - reflexivity.
  - now rewrite IH.
  - rewrite (H tok), IH by auto. reflexivity.
Qed.

Lemma transpose_song_raise_keys (text k1 k2 : str) (e : exn) :
  transpose_song text k1 k2 = Raise e ->
  ~ In (normalize_chord k1) NOTES \/ ~ In (normalize_chord k2) NOTES.
Proof.
  intros He.
  destruct (str_in (normalize_chord k1) NOTES) eqn:E1.
  - destruct (str_in (normalize_chord k2) NOTES) eqn:E2.
    + apply str_in_In in E1, E2.
      destruct (transpose_song_valid text k1 k2 E1 E2) as (n & _ & E).
      congruence.
    + right. intros H. apply str_in_In in H. congruence.
  - left. intros H. apply str_in_In in H. congruence.
Qed.

(** C3: with two keys that normalise to names of [NOTES], [transpose_song]
    returns a text whatever the song is; the characters outside the chord
    tokens pass through, and a song without chord tokens is returned as it
    is.  An error comes from the keys only. *)
Theorem transpose_song_total (text k1 k2 : str) :
  (In (normalize_chord k1) NOTES -> In (normalize_chord k2) NOTES ->
   exists out n,
     transpose_song text k1 k2 = Ok out /\
     out = concat (map (rewrite_span (rewritten n)) (chord_spans text)) /\
     text = concat (map span_text (chord_spans text)) /\
     (chord_tokens text = [] -> out = text)) /\
  (forall e, transpose_song text k1 k2 = Raise e ->
     ~ In (normalize_chord k1) NOTES \/ ~ In (normalize_chord k2) NOTES).
Proof.
  split.
  - intros H1 H2. destruct (transpose_song_valid text k1 k2 H1 H2) as (n & _ & E).
    eexists. exists n. split; [exact E |]. split; [reflexivity |].
    split; [symmetry; apply spans_text |].
    intros Hno. rewrite rewrite_spans_same; [apply spans_text |].
    intros tok Hin. unfold chord_tokens in Hno. rewrite Hno in Hin. contradiction.
  - apply transpose_song_raise_keys.
Qed.

(** C7, as the code has it: [transpose_song] fails exactly when one of the
    two keys does not normalise to a name of [NOTES]; the error is then the
    [ValueError] with the fixed message, whichever key it was and whatever
    the text is. *)
Theorem transpose_song_error (text k1 k2 : str) (e : exn) :
  (transpose_song text k1 k2 = Raise e <->
   e = ValueError invalid_key_msg /\
   (~ In (normalize_chord k1) NOTES \/ ~ In (normalize_chord k2) NOTES)) /\
  (transpose_song text k1 k2 = Raise e ->
   forall text', transpose_song text' k1 k2 = Raise e).
Proof.
  assert (H : transpose_song text k1 k2 = Raise e ->
              e = ValueError invalid_key_msg /\
              (~ In (normalize_chord k1) NOTES \/ ~ In (normalize_chord k2) NOTES)).
  { intros He.
    assert (K : ~ In (normalize_chord k1) NOTES \/ ~ In (normalize_chord k2) NOTES)
      by (eapply transpose_song_raise_keys; eassumption).
    split; [| assumption].
    rewrite (transpose_song_invalid text k1 k2 K) in He. congruence. }
  split; [split; [exact H |] |].
  - intros [-> K]. now apply transpose_song_invalid.
  - intros He text'. destruct (H He) as [-> K]. now apply transpose_song_invalid.
Qed.

(** ** The frame of the text *)

Lemma solid_app (v w : str) :
  solid v -> forallb nonspace w = true -> solid (v ++ w).
Proof.
  intros [Hne Hv] Hw. split.
  - destruct v; [congruence | discriminate].
  - now rewrite forallb_app, Hv, Hw.
Qed.

Lemma words_solid (v rest : str) (b : bool) :
  solid v ->
  words_from b (v ++ rest) = ((if b then 0 else 1) + words_from true rest)%nat.
Proof.
  intros [Hne Hv]. revert b. induction v as [|c v IH]; intros b; [congruence |].
  cbn [forallb] in Hv. apply andb_true_iff in Hv as [Hc Hv].
  unfold nonspace in Hc. apply negb_true_iff in Hc.
  cbn [app words_from]. rewrite Hc.
  destruct v as [|c' v]; [reflexivity |].
  rewrite IH by (assumption || discriminate). reflexivity.
Qed.

Lemma count_solid (v rest : str) (c : char) :
  forallb nonspace v = true -> isspace c = true ->
  count_occ N.eq_dec (v ++ rest) c = count_occ N.eq_dec rest c.
Proof.
  intros Hv Hc. induction v as [|x v IH]; [reflexivity |].
  cbn [forallb] in Hv. apply andb_true_iff in Hv as [Hx Hv].
  cbn [app count_occ]. destruct (N.eq_dec x c) as [-> | _].
  - unfold nonspace in Hx. rewrite Hc in Hx. discriminate.
  - now apply IH.
Qed.

(** Spans cut alike, with the same characters outside the chords and solid
    chords, count the same words and the same white space. *)
Lemma frame_counts (l : list span) (outs : list str) :
  Forall2 (fun sp o => match sp with
                       | Literal c => o = [c]
                       | Chord tok => solid tok /\ solid o
                       end) l outs ->
  (forall b, words_from b (concat outs) = words_from b (concat (map span_text l))) /\
  (forall c, isspace c = true ->
     count_occ N.eq_dec (concat outs) c
     = count_occ N.eq_dec (concat (map span_text l)) c).
Proof.
  induction 1 as [| sp o l outs Hsp _ [IHw IHc]]; [split; reflexivity |].
  cbn [map concat]. destruct sp as [c | tok].
  - subst o. cbn [span_text]. split.
    + intros b. cbn [app words_from]. now rewrite !IHw.
    + intros c' Hc'. cbn [app count_occ]. now rewrite IHc.
  - destruct Hsp as [Ht Ho]. cbn [span_text]. split.
    + intros b. now rewrite !words_solid, IHw.
    + intros c Hc.
      rewrite (count_solid o _ c (proj2 Ho) Hc), (count_solid tok _ c (proj2 Ht) Hc).
      now apply IHc.
Qed.

Lemma NOTES_solid (r : str) : In r NOTES -> solid r.
Proof.
  intros H. simpl in H.
  repeat (destruct H as [<- | H]; [split; [discriminate | reflexivity] |]).
  contradiction.
Qed.

Lemma quality_seq_nonspace (u : str) : quality_seq u -> forallb nonspace u = true.
Proof.
  intros H. apply quality_seq_chars in H. rewrite forallb_forall in *.
  intros c Hc. unfold nonspace. now rewrite (quality_char_not_space c (H c Hc)).
Qed.

Lemma shifted_cases (semitones : Z) (root : str) :
  shifted semitones root = root \/ In (shifted semitones root) NOTES.
Proof.
  unfold shifted. destruct (list_index NOTES root) as [i | e] eqn:E; [| now left].
  destruct (str_in root NOTES) eqn:F.
  - apply str_in_In in F. destruct (list_index_NOTES root F) as (j & Ej & _).
    destruct (list_get_NOTES ((i + semitones) mod 12)%Z) as (x & -> & _ & Hx).
    { apply Z.mod_pos_bound. lia. }
    now right.
  - destruct (list_index_absent root F). congruence.
Qed.

(** Each chord of the scan stands before some rest of the text. *)
Lemma spans_view (prev : option char) (s : str) (tok : str) :
  In (Chord tok) (scan chord_pattern 0 prev s) -> exists rest, chord_view rest tok.
Proof.
  revert prev s. apply (scan_induction (fun prev s =>
    In (Chord tok) (scan chord_pattern 0 prev s) -> exists rest, chord_view rest tok)).
  - intros prev [].
  - intros prev c s H IH. rewrite spans_literal by assumption.
    intros [F | F]; [discriminate | auto].
  - intros prev t rest Hne H IH. rewrite spans_chord by assumption.
    intros [F | F]; [| auto]. injection F as ->. exists rest.
    now apply (chord_at_view prev).
Qed.

Lemma rewritten_kept (rest tok : str) (semitones : Z) :
  chord_view rest tok ->
  span_kept (Chord tok) (rewritten semitones tok) /\
  solid tok /\ solid (rewritten semitones tok).
Proof.
  intros H.
  destruct (transpose_chord_token rest tok semitones H) as (root & u & -> & R & Hq & E).
  unfold rewritten. rewrite E.
  destruct (normalize_root root) as (_ & _ & N); [left; now exists u |].
  pose proof (root_of_solid _ _ R) as Sr.
  pose proof (quality_seq_nonspace u Hq) as Su.
  assert (K : shifted semitones (normalize_chord root) = root \/
              In (shifted semitones (normalize_chord root)) NOTES).
  { destruct (shifted_cases semitones (normalize_chord root)) as [K | K];
      [| now right].
    rewrite K. destruct N as [N | N]; [now left | now right]. }
  split; [| split].
  - exists root, (shifted semitones (normalize_chord root)), u. auto.
  - now apply solid_app.
  - apply solid_app; [| assumption].
    destruct K as [-> | K]; [assumption | now apply NOTES_solid].
Qed.

(** C6: the song that [transpose_song] returns has the white space of the
    text, line breaks included, and as many words; it is the text cut into
    spans with every character outside the chord tokens kept in place and, in
    a chord token, the root alone respelt. *)
Theorem structure_preserved (text k1 k2 out : str) :
  transpose_song text k1 k2 = Ok out ->
  count_occ N.eq_dec out 10%N = count_occ N.eq_dec text 10%N /\
  (forall c, isspace c = true ->
     count_occ N.eq_dec out c = count_occ N.eq_dec text c) /\
  word_count out = word_count text /\
  exists outs,
    Forall2 span_kept (chord_spans text) outs /\
    concat (map span_text (chord_spans text)) = text /\
    concat outs = out.
Proof.
  intros E.
  assert (V : In (normalize_chord k1) NOTES /\ In (normalize_chord k2) NOTES).
  { destruct (str_in (normalize_chord k1) NOTES) eqn:E1;
      destruct (str_in (normalize_chord k2) NOTES) eqn:E2;
      try (split; now apply str_in_In);
      rewrite transpose_song_invalid in E; try discriminate.
    - right. intros H. apply str_in_In in H. congruence.
    - left. intros H. apply str_in_In in H. congruence.
    - left. intros H. apply str_in_In in H. congruence. }
  destruct V as [V1 V2].
  destruct (transpose_song_valid text k1 k2 V1 V2) as (n & _ & F).
  rewrite F in E. injection E as <-.
  set (outs := map (rewrite_span (rewritten n)) (chord_spans text)).
  assert (A : Forall2 (fun sp o => span_kept sp o /\
                         match sp with
                         | Literal c => o = [c]
                         | Chord tok => solid tok /\ solid o
                         end) (chord_spans text) outs).
  { subst outs. unfold chord_spans.
    pose proof (spans_view None text) as Hv.
    induction (scan chord_pattern 0 None text) as [|sp l IH]; [constructor |].
    cbn [map]. constructor.
    - destruct sp as [c | tok]; [now split |].
      destruct (Hv tok) as (rest & Hr); [now left |].
      destruct (rewritten_kept rest tok n Hr) as (K1 & K2 & K3). auto.
    - apply IH. intros tok Hin. apply Hv. now right. }
  assert (B : Forall2 (fun sp o => match sp with
                                   | Literal c => o = [c]
                                   | Chord tok => solid tok /\ solid o
                                   end) (chord_spans text) outs).
  { eapply Forall2_impl; [| exact A]. intros sp o [_ H]. exact H. }
  destruct (frame_counts _ _ B) as [Hw Hc].
  pose proof (spans_text None text) as T. fold (chord_spans text) in T.
  rewrite T in Hw, Hc.
  split; [now apply Hc |]. split; [exact Hc |]. split; [apply Hw |].
  exists outs. split; [| split; [exact T | reflexivity]].
  eapply Forall2_impl; [| exact A]. intros sp o [H _]. exact H.
Qed.

(** ** The zero interval *)

Lemma shifted_zero (root : str) : shifted 0 root = root.
Proof.
  unfold shifted. destruct (list_index NOTES root) as [i | e] eqn:E; [| reflexivity].
  destruct (str_in root NOTES) eqn:F.
  - apply str_in_In in F. destruct (list_index_NOTES root F) as (j & Ej & Rj & Nj).
    assert (i = j) by congruence. subst j.
    rewrite Z.add_0_r, Z.mod_small by lia.
    destruct (list_get_NOTES i Rj) as (x & -> & Nx & _). congruence.
  - destruct (list_index_absent root F). congruence.
Qed.

Lemma rewritten_zero (rest tok : str) :
  chord_view rest tok -> rewritten 0 tok = normalize_chord tok.
Proof.
  intros H.
  destruct (transpose_chord_token rest tok 0 H) as (root & u & -> & R & Hq & E).
  unfold rewritten. rewrite E, shifted_zero.
  now rewrite normalize_chord_app by now apply quality_seq_no_b.
Qed.

Lemma interval_same (a : str) : In a NOTES -> interval a a = Ok 0%Z.
Proof.
  intros H. destruct (list_index_NOTES a H) as (i & E & _).
  unfold interval. rewrite E. cbn [bind]. now rewrite Z.sub_diag.
Qed.

Lemma rewrite_spans_ext (g h : str -> str) (l : list span) :
  (forall tok, In (Chord tok) l -> g tok = h tok) ->
  concat (map (rewrite_span g) l) = concat (map (rewrite_span h) l).
Proof.
  induction l as [|[c | tok] l IH]; intros H; cbn [map concat rewrite_span].
  - reflexivity.
  - rewrite IH; [reflexivity |]. intros tok Hin. apply H. now right.
  - rewrite (H tok) by now left. rewrite IH; [reflexivity |].
    intros t Hin. apply H. now right.
Qed.

Lemma replace_pair_length (a b c d : char) (s : str) :
  length (replace_from [a; b] [c; d] 0 s) = length s.
Proof.
  induction s as [| x | x y t IHt IHyt] using str_pair_ind.
  - reflexivity.
  - now rewrite replace_pair_one.
  - rewrite replace_pair_step. destruct (char_eqb a x && char_eqb b y); simpl.
    + now rewrite IHt.
    + simpl in IHyt. now rewrite IHyt.
Qed.

Lemma normalize_chord_length (s : str) : length (normalize_chord s) = length s.
Proof.
  rewrite normalize_chord_passes.
  cbv [lit map list_ascii_of_string N_of_ascii N_of_digits N.add N.mul].
  now rewrite !replace_pair_length.
Qed.

(** A rewriting that keeps the lengths and gives back the text has kept
    every chord. *)
Lemma rewrite_spans_fixed (g : str -> str) (l : list span) :
  (forall tok, length (g tok) = length tok) ->
  concat (map (rewrite_span g) l) = concat (map span_text l) ->
  forall tok, In (Chord tok) l -> g tok = tok.
Proof.
  intros Hg. induction l as [|[c | t] l IH]; cbn [map concat rewrite_span span_text];
    intros E tok Hin.
  - contradiction.
  - destruct Hin as [Hin | Hin]; [discriminate |].
    injection E as E. now apply IH.
  - destruct (app_same_length _ _ _ _ E (Hg t)) as [E1 E2].
    destruct Hin as [Hin | Hin]; [injection Hin as <-; assumption | now apply IH].
Qed.

(** C1, as the code has it: transposing from a key to the same key
    normalises each chord token of the text and keeps the rest; the text
    comes back unchanged exactly when none of its chord tokens holds a flat
    spelling. *)
Theorem zero_interval_normalizes (text k : str) :
  In (normalize_chord k) NOTES ->
  transpose_song text k k
  = Ok (concat (map (rewrite_span normalize_chord) (chord_spans text))) /\
  (transpose_song text k k = Ok text <->
   forall tok, In tok (chord_tokens text) -> flat_free tok = true).
Proof.
  intros V. destruct (transpose_song_valid text k k V V) as (n & En & E).
  rewrite (interval_same _ V) in En. injection En as <-.
  assert (F : transpose_song text k k
              = Ok (concat (map (rewrite_span normalize_chord) (chord_spans text)))).
  { rewrite E. f_equal. apply rewrite_spans_ext. intros tok Hin.
    destruct (spans_view None text tok Hin) as (rest & Hr).
    now apply (rewritten_zero rest). }
  split; [exact F |]. rewrite F. split.
  - intros G. injection G as G. intros tok Hin.
    rewrite <- (spans_text None text) in G at 2. fold (chord_spans text) in G.
    apply in_chords in Hin.
    rewrite <- (rewrite_spans_fixed normalize_chord _ normalize_chord_length G tok Hin).
    apply normalize_chord_flat_free.
  - intros G. f_equal. rewrite rewrite_spans_same; [apply spans_text |].
    intros tok Hin. apply normalize_chord_fixed. now apply G.
Qed.

(** ** The text written by a pass *)

Lemma chord_at_prev (prev prev' : option char) (s : str) (k : nat) :
  word_before prev' = word_before prev -> chord_at prev s k -> chord_at prev' s k.
Proof.
  intros E H. destruct H; [apply chord_plain with (rest := rest)
                          | apply chord_flat with (rest := rest)
                          | apply chord_sharp with (rest := rest)
                          | apply chord_sharp_bare | apply chord_letter_sharp];
    auto; congruence.
Qed.

Lemma match_at_prev (prev prev' : option char) (s : str) :
  word_before prev' = word_before prev ->
  match_at chord_pattern prev' s = match_at chord_pattern prev s.
Proof.
  intros E.
  destruct (match_at chord_pattern prev s) as [k |] eqn:F.
  - apply match_at_chord_iff. apply (chord_at_prev prev); [assumption |].
    now apply match_at_chord_iff.
  - destruct (match_at chord_pattern prev' s) as [k |] eqn:G; [| reflexivity].
    apply match_at_chord_iff in G. apply (chord_at_prev prev' prev) in G; [| easy].
    apply match_at_chord_iff in G. congruence.
Qed.

Lemma NOTES_cases (r : str) :
  In r NOTES -> exists y, is_AG y = true /\ (r = [y] \/ r = [y; 35%N]).
Proof.
  intros H. simpl in H.
  repeat (destruct H as [<- | H];
          [eexists; split; [| first [left; reflexivity | right; reflexivity]];
           reflexivity |]).
  contradiction.
Qed.

Section Pass.

(** The number of semitones of the pass. *)
Variable n : Z.

Lemma out_literal (prev : option char) (c : char) (s : str) :
  match_at chord_pattern prev (c :: s) = None ->
  out_from n prev (c :: s) = c :: out_from n (Some c) s.
Proof. intros H. unfold out_from. now rewrite spans_literal. Qed.

Lemma out_chord (prev : option char) (tok rest : str) :
  tok <> [] -> chord_at prev (tok ++ rest) (length tok) ->
  out_from n prev (tok ++ rest) = rewritten n tok ++ out_from n (last_char prev tok) rest.
Proof. intros Hne H. unfold out_from. now rewrite spans_chord. Qed.

Lemma out_after_word (prev : option char) (c : char) (s : str) :
  word_before prev = true \/ is_AG c = false ->
  out_from n prev (c :: s) = c :: out_from n (Some c) s.
Proof. intros H. apply out_literal. now apply match_at_chord_none. Qed.

(** A token is rewritten to a text that begins with a letter A to G. *)
Lemma rewritten_begins (rest tok : str) :
  chord_view rest tok -> begins_AG (rewritten n tok) = true.
Proof.
  intros H.
  destruct (transpose_chord_token rest tok n H) as (root & u & -> & R & Hq & E).
  unfold rewritten. rewrite E.
  assert (B : begins_AG (normalize_chord root) = true).
  { rewrite normalize_chord_begins. destruct (root_of_solid _ _ R) as [Hne _].
    destruct root as [|x root]; [congruence |]. simpl in *.
    destruct (is_AG x); [reflexivity | discriminate]. }
  destruct (shifted_cases n (normalize_chord root)) as [-> | K].
  - destruct (normalize_chord root); [discriminate | exact B].
  - destruct (NOTES_cases _ K) as (y & Hy & [-> | ->]); exact Hy.
Qed.

(** The first character of the text written is the first character read, or
    both are letters A to G. *)
Lemma out_head (prev : option char) (s : str) :
  match s with
  | [] => out_from n prev s = []
  | c :: _ => exists c' o, out_from n prev s = c' :: o /\
                           (c' = c \/ is_AG c = true /\ is_AG c' = true)
  end.
Proof.
  destruct s as [|c s]; [reflexivity |].
  destruct (match_at chord_pattern prev (c :: s)) as [k |] eqn:E.
  - apply match_chord_at in E. pose proof (chord_at_bounds _ _ _ E) as [K1 K2].
    assert (L : length (firstn k (c :: s)) = k) by (apply firstn_length_le; lia).
    pose proof (firstn_skipn k (c :: s)) as Es.
    destruct k as [|k]; [lia |].
    set (tok := firstn (S k) (c :: s)) in *. set (rest := skipn (S k) (c :: s)) in *.
    rewrite <- Es in E |- *. rewrite <- L in E.
    assert (Hne : tok <> []) by (subst tok; discriminate).
    rewrite out_chord by assumption.
    destruct (chord_at_view _ _ _ E) as [_ V].
    pose proof (rewritten_begins rest tok V) as B.
    destruct (rewritten n tok) as [|c' o]; [discriminate |].
    exists c', (o ++ out_from n (last_char prev tok) rest). split; [reflexivity |].
    right. split; [| exact B].
    destruct (chord_view_shape _ _ V) as (root & u & Et & _ & _ & Br).
    subst tok. cbn [firstn] in Et. destruct root as [|x root]; [discriminate |].
    cbn [app] in Et. injection Et as -> _. exact Br.
  - rewrite out_literal by assumption. exists c, (out_from n (Some c) s). auto.
Qed.

Lemma out_word_after (prev : option char) (s : str) :
  word_after (out_from n prev s) = word_after s.
Proof.
  pose proof (out_head prev s) as H. destruct s as [|c s]; [now rewrite H |].
  destruct H as (c' & o & -> & [-> | [H1 H2]]); [reflexivity |].
  simpl. now rewrite (is_AG_word c H1), (is_AG_word c' H2).
Qed.

(** Inside a word nothing is rewritten. *)
Lemma out_word_run (u rest : str) (prev : option char) :
  word_before prev = true -> forallb is_word u = true ->
  out_from n prev (u ++ rest) = u ++ out_from n (last_char prev u) rest.
Proof.
  revert prev. induction u as [|c u IH]; intros prev Hp Hu; [reflexivity |].
  cbn [forallb] in Hu. apply andb_true_iff in Hu as [Hc Hu].
  cbn [app last_char]. rewrite out_after_word by now left.
  now rewrite IH.
Qed.

Lemma out_cons_inv (prev : option char) (s r : str) (y : char) :
  word_before prev = true \/ is_AG y = false ->
  out_from n prev s = y :: r ->
  exists s1, s = y :: s1 /\ r = out_from n (Some y) s1.
Proof.
  intros Hp E. pose proof (out_head prev s) as H.
  destruct s as [|z s1]; [rewrite H in E; discriminate |].
  destruct H as (c' & o & F & G). rewrite F in E. injection E as -> ->.
  assert (Ez : y = z).
  { destruct G as [G | [G1 G2]]; [assumption |].
    destruct Hp as [Hp | Hp]; [| congruence].
    rewrite out_after_word in F by now left. now injection F. }
  subst z. exists s1. split; [reflexivity |].
  rewrite out_after_word in F.
  - now injection F.
  - destruct Hp as [Hp | Hp]; [now left | now right].
Qed.

Lemma out_word_run_inv (u : str) :
  forall prev r rest',
    word_before prev = true -> forallb is_word u = true ->
    word_after rest' = false -> out_from n prev r = u ++ rest' ->
    exists rest, r = u ++ rest /\ word_after rest = false /\
                 rest' = out_from n (last_char prev u) rest.
Proof.
  induction u as [|c u IH]; intros prev r rest' Hp Hu Hr E.
  - exists r. cbn [app] in *. subst rest'. rewrite out_word_after in Hr. auto.
  - cbn [forallb] in Hu. apply andb_true_iff in Hu as [Hc Hu].
    cbn [app] in E. destruct (out_cons_inv prev r _ c (or_introl Hp) E) as (s1 & -> & E1).
    destruct (IH (Some c) s1 rest' Hc Hu Hr (eq_sym E1)) as (rest & -> & H1 & H2).
    exists rest. auto.
Qed.

(** A quality sequence is read in the text written where one is read in the
    text, and conversely. *)
Lemma reads_to_out (prev : option char) (r u rest : str) :
  reads r u rest -> u <> [] \/ word_before prev = true ->
  reads (out_from n prev r) u (out_from n (last_char prev u) rest).
Proof.
  intros (-> & Hq & Hr) H. split; [| split; [assumption | now rewrite out_word_after]].
  destruct u as [|c u].
  - reflexivity.
  - pose proof (quality_seq_chars _ Hq) as Hc. cbn [forallb] in Hc.
    apply andb_true_iff in Hc as [Hc _].
    pose proof (quality_seq_words _ Hq) as Hw. cbn [forallb] in Hw.
    apply andb_true_iff in Hw as [Hcw Hw].
    cbn [app last_char].
    rewrite out_after_word by (right; now apply quality_char_not_AG).
    now rewrite out_word_run.
Qed.

Lemma reads_of_out (prev : option char) (r u rest' : str) :
  reads (out_from n prev r) u rest' -> u <> [] \/ word_before prev = true ->
  exists rest, reads r u rest.
Proof.
  intros (E & Hq & Hr) H. destruct u as [|c u].
  - destruct H as [H | H]; [congruence |]. exists r.
    split; [reflexivity |]. split; [assumption |].
    cbn [app] in E. rewrite <- E, out_word_after in Hr. exact Hr.
  - pose proof (quality_seq_chars _ Hq) as Hc. cbn [forallb] in Hc.
    apply andb_true_iff in Hc as [Hc _].
    pose proof (quality_seq_words _ Hq) as Hw. cbn [forallb] in Hw.
    apply andb_true_iff in Hw as [Hcw Hw].
    cbn [app] in E.
    destruct (out_cons_inv prev r _ c (or_intror (quality_char_not_AG c Hc)) E)
      as (s1 & -> & E1).
    destruct (out_word_run_inv u (Some c) s1 rest' Hcw Hw Hr (eq_sym E1))
      as (rest & -> & H1 & _).
    exists rest. split; [reflexivity |]. auto.
Qed.

(** A match in the text written at a character that was not rewritten is a
    match in the text. *)
Lemma chord_at_of_out (prev : option char) (c : char) (s : str) (k : nat) :
  is_word c = true ->
  chord_at prev (c :: out_from n (Some c) s) k -> chord_at prev (c :: s) k.
Proof.
  intros Hc H. remember (c :: out_from n (Some c) s) as t eqn:Et.
  destruct H as [x r u rest Hp Hx Hr Hu | x r u rest Hp Hx Hu
                | x r u rest Hp Hx Hne Hu | x r Hp Hx Hw Hno | x r Hp Hx Hw];
    injection Et as -> Et.
  - subst r. destruct (reads_of_out (Some c) s u rest Hu) as (rest0 & Hu0);
      [now right |].
    apply chord_plain with (rest := rest0); auto.
    destruct s as [|y s]; [exact I |].
    rewrite out_after_word in Hr by now left. exact Hr.
  - destruct (out_cons_inv (Some c) s r 98%N (or_introl Hc) (eq_sym Et))
      as (s1 & -> & ->).
    destruct (reads_of_out (Some 98%N) s1 u rest Hu) as (rest0 & Hu0);
      [now right |].
    now apply chord_flat with (rest := rest0).
  - destruct (out_cons_inv (Some c) s r 35%N (or_introl Hc) (eq_sym Et))
      as (s1 & -> & ->).
    destruct (reads_of_out (Some 35%N) s1 u rest Hu) as (rest0 & Hu0);
      [now left |].
    now apply chord_sharp with (rest := rest0).
  - destruct (out_cons_inv (Some c) s r 35%N (or_introl Hc) (eq_sym Et))
      as (s1 & -> & ->).
    rewrite out_word_after in Hw.
    apply chord_sharp_bare; auto.
    intros u rest Hu. apply (Hno u (out_from n (last_char (Some 35%N) u) rest)).
    apply reads_to_out; [assumption |]. left. intros ->.
    destruct Hu as (-> & _ & Hr). cbn [app] in Hw. congruence.
  - destruct (out_cons_inv (Some c) s r 35%N (or_introl Hc) (eq_sym Et))
      as (s1 & -> & ->).
    rewrite out_word_after in Hw.
    now apply chord_letter_sharp.
Qed.

(** ** A chord token in the text written *)

Lemma quality_seq_head (c : char) (u : str) :
  quality_seq (c :: u) -> quality_char c = true.
Proof.
  intros H. apply quality_seq_chars in H. cbn [forallb] in H.
  now apply andb_true_iff in H as [H _].
Qed.

(** The token stands in the same way before the text written for what
    follows it. *)
Lemma view_out (prev : option char) (rest tok : str) :
  chord_view rest tok -> chord_view (out_from n (last_char prev tok) rest) tok.
Proof.
  intros H.
  destruct H as [x u Hx Hq Hw Hr | x u Hx Hq Hw | x u Hx Hne Hq Hw
                | x Hx Hw Hno | x r Hx -> Hw].
  - apply view_plain; auto; [now rewrite out_word_after |].
    intros E. specialize (Hr E).
    pose proof (out_head (last_char prev (x :: u)) rest) as Hh.
    destruct rest as [|y rest]; [now rewrite Hh |].
    destruct Hh as (c' & o & -> & [-> | [_ Hc']]); [assumption |].
    intros ->. discriminate.
  - apply view_flat; auto. now rewrite out_word_after.
  - apply view_sharp; auto. now rewrite out_word_after.
  - apply view_sharp_bare; auto; [now rewrite out_word_after |].
    intros u rest' Hu. cbn [last_char] in Hu.
    destruct (reads_of_out (Some 35%N) rest u rest' Hu) as (rest0 & Hu0).
    + left. intros ->. destruct Hu as (E & _ & Hr). cbn [app] in E.
      rewrite <- E, out_word_after in Hr. congruence.
    + exact (Hno u rest0 Hu0).
  - cbn [last_char]. rewrite out_after_word by now right.
    apply view_letter_sharp with (r := out_from n (Some 35%N) r); auto.
    now rewrite out_word_after.
Qed.

Lemma view_change_letter (rest w : str) (x y : char) :
  chord_view rest (x :: w) -> is_AG y = true -> chord_view rest (y :: w).
Proof.
  intros H Hy. inversion H; subst.
  - now apply view_plain.
  - now apply view_flat.
  - now apply view_sharp.
  - now apply view_sharp_bare.
  - now apply view_letter_sharp with (r := r).
Qed.

Lemma view_add_sharp (rest u : str) (x y : char) :
  chord_view rest (x :: u) -> quality_seq u -> u <> [] -> is_AG y = true ->
  chord_view rest (y :: 35%N :: u).
Proof.
  intros H Hu Hne Hy. inversion H; subst.
  - now apply view_sharp.
  - apply quality_seq_head in Hu. discriminate.
  - apply quality_seq_head in Hu. discriminate.
  - apply quality_seq_head in Hu. discriminate.
  - congruence.
Qed.

Lemma view_drop_sharp (rest u : str) (x y : char) :
  chord_view rest (x :: 35%N :: u) -> u <> [] -> is_AG y = true ->
  chord_view rest (y :: u).
Proof.
  intros H Hne Hy. inversion H; subst.
  - match goal with Q : quality_seq (35%N :: _) |- _ =>
      apply quality_seq_head in Q; discriminate end.
  - apply view_plain; auto. congruence.
  - congruence.
Qed.

Lemma ends_sharp_letter (x : char) : is_AG x = true -> ends_sharp [x] = false.
Proof. intros H. unfold ends_sharp. cbn [last_char]. char_cases. Qed.

Lemma flat_free_root (root u : str) :
  quality_seq u -> flat_free (root ++ u) = true -> normalize_chord root = root.
Proof.
  intros Hq H. apply normalize_chord_fixed in H.
  rewrite normalize_chord_app in H by now apply quality_seq_no_b.
  now apply app_inv_tail in H.
Qed.

(** The token written for a token is a token of the text written, when it
    holds no flat spelling and its end keeps its kind. *)
Lemma rewritten_view (prev : option char) (rest tok : str) :
  chord_view rest tok -> flat_free tok = true ->
  ends_sharp (rewritten n tok) = ends_sharp tok ->
  chord_view (out_from n (last_char prev tok) rest) (rewritten n tok).
Proof.
  intros V F S. pose proof (view_out prev rest tok V) as V'.
  destruct (transpose_chord_token rest tok n V) as (root & u & -> & R & Hq & E).
  unfold rewritten in *. rewrite E in *. clear E.
  rewrite (flat_free_root root u Hq F) in *.
  destruct (str_in root NOTES) eqn:N.
  2: { unfold shifted. destruct (list_index_absent root N) as (e & ->). exact V'. }
  apply str_in_In in N.
  destruct (shifted_cases n root) as [-> | K]; [exact V' |].
  destruct (NOTES_cases _ N) as (x & Hx & [-> | ->]);
    destruct (NOTES_cases _ K) as (y & Hy & [Ey | Ey]); rewrite Ey in *;
    cbn [app] in *.
  - now apply (view_change_letter _ _ x).
  - destruct u as [|c u].
    + assert (T : ends_sharp [y; 35%N] = true) by reflexivity.
      rewrite T, (ends_sharp_letter x Hx) in S. discriminate.
    + apply (view_add_sharp _ _ x); auto. discriminate.
  - destruct u as [|c u].
    + assert (T : ends_sharp [x; 35%N] = true) by reflexivity.
      rewrite T, (ends_sharp_letter y Hy) in S. discriminate.
    + apply (view_drop_sharp _ _ x); auto. discriminate.
  - now apply (view_change_letter _ _ x).
Qed.

Lemma last_token_char (v : str) (p : option char) :
  v <> [] -> forallb token_char v = true ->
  word_before (last_char p v) = negb (ends_sharp v).
Proof.
  intros Hne Hv. unfold ends_sharp.
  assert (G : forall p q, v <> [] -> last_char p v = last_char q v).
  { clear. induction v as [|c v IH]; intros p q H; [congruence |].
    reflexivity. }
  rewrite (G p None Hne). clear G.
  assert (G : forall q, match last_char q v with
                        | Some c => In c v \/ q = Some c
                        | None => q = None /\ v = []
                        end).
  { clear. induction v as [|c v IH]; intros q; simpl.
    - destruct q; auto.
    - specialize (IH (Some c)). destruct (last_char (Some c) v) as [d |].
      + destruct IH as [IH | IH]; [auto | injection IH as ->; auto].
      + destruct IH; discriminate. }
  specialize (G None). destruct (last_char None v) as [c |].
  - destruct G as [G | G]; [| discriminate].
    rewrite forallb_forall in Hv. specialize (Hv c G). unfold token_char in Hv.
    cbn [word_before]. destruct (char_eqb c 35%N) eqn:E.
    + apply char_eqb_eq in E. subst c. reflexivity.
    + rewrite orb_false_r in Hv. now rewrite Hv.
  - destruct G; congruence.
Qed.

Lemma token_chars (rest tok : str) :
  chord_view rest tok ->
  (tok <> [] /\ forallb token_char tok = true) /\
  (rewritten n tok <> [] /\ forallb token_char (rewritten n tok) = true).
Proof.
  intros V.
  destruct (transpose_chord_token rest tok n V) as (root & u & -> & R & Hq & E).
  unfold rewritten. rewrite E. clear E.
  assert (Hu : forallb token_char u = true).
  { pose proof (quality_seq_words u Hq) as Hw. rewrite forallb_forall in *.
    intros c Hc. unfold token_char. now rewrite (Hw c Hc). }
  assert (Hroot : forall r1, root_of r1 = Some r1 ->
                    r1 <> [] /\ forallb token_char r1 = true).
  { intros r1 H1. destruct r1 as [|x [|y r1]]; simpl in H1; try discriminate;
      destruct (is_AG x) eqn:Hx; try discriminate;
      (split; [discriminate |]); cbn [forallb]; unfold token_char at 1;
      rewrite (is_AG_word x Hx); cbn [orb andb]; [reflexivity |].
    destruct (is_sharp_b y) eqn:Hy; [| discriminate H1]. injection H1 as <-.
    destruct (sign_cases y Hy) as [-> | ->]; reflexivity. }
  assert (Hnotes : forall r1, In r1 NOTES ->
                     r1 <> [] /\ forallb token_char r1 = true).
  { intros r1 H1. simpl in H1.
    repeat (destruct H1 as [<- | H1]; [split; [discriminate | reflexivity] |]).
    contradiction. }
  assert (R0 : root_of root = Some root).
  { destruct (normalize_root root) as (R1 & _ & [N | N]); [left; now exists u | |].
    - now rewrite N in R1.
    - clear - R. destruct root as [|x [|y root]]; simpl in *.
      + exfalso. destruct u as [|x [|y u]]; simpl in R; try discriminate;
          destruct (is_AG x); try discriminate; destruct (is_sharp_b y); discriminate.
      + destruct (is_AG x); [reflexivity | discriminate].
      + assumption. }
  assert (A : forall r1, r1 <> [] /\ forallb token_char r1 = true ->
                r1 ++ u <> [] /\ forallb token_char (r1 ++ u) = true).
  { intros r1 [H1 H2]. split.
    - destruct r1; [congruence | discriminate].
    - now rewrite forallb_app, H2. }
  split; [now apply A, Hroot |]. apply A.
  destruct (normalize_root root) as (R1 & _ & N); [left; now exists u |].
  destruct (shifted_cases n (normalize_chord root)) as [-> | K].
  - now apply Hroot.
  - now apply Hnotes.
Qed.

Lemma chord_at_letter (prev : option char) (c : char) (s : str) (k : nat) :
  chord_at prev (c :: s) k -> is_AG c = true.
Proof. intros H. inversion H; subst; assumption. Qed.

(** ** The scan of the text written *)

(** A second scan finds in the text written the spans of the text, with
    each chord token rewritten, when no chord token holds a flat spelling and
    every chord token keeps the kind of its end. *)
Lemma second_scan (prev : option char) (s : str) :
  (forall tok, In (Chord tok) (scan chord_pattern 0 prev s) ->
     flat_free tok = true /\ ends_sharp (rewritten n tok) = ends_sharp tok) ->
  forall prev', word_before prev' = word_before prev ->
    scan chord_pattern 0 prev' (out_from n prev s)
    = map (span_map (rewritten n)) (scan chord_pattern 0 prev s).
Proof.
  revert prev s. apply (scan_induction (fun prev s =>
    (forall tok, In (Chord tok) (scan chord_pattern 0 prev s) ->
       flat_free tok = true /\ ends_sharp (rewritten n tok) = ends_sharp tok) ->
    forall prev', word_before prev' = word_before prev ->
      scan chord_pattern 0 prev' (out_from n prev s)
      = map (span_map (rewritten n)) (scan chord_pattern 0 prev s))).
  - reflexivity.
  - intros prev c s H IH G prev' Ep.
    rewrite out_literal by assumption. rewrite (spans_literal prev c s H) in G |- *.
    cbn [map span_map].
    assert (M : match_at chord_pattern prev' (c :: out_from n (Some c) s) = None).
    { destruct (match_at chord_pattern prev' (c :: out_from n (Some c) s)) as [k |] eqn:E;
        [| reflexivity].
      apply match_chord_at in E.
      pose proof (chord_at_letter _ _ _ _ E) as Hc.
      apply chord_at_of_out in E; [| now apply is_AG_word].
      apply (chord_at_prev prev' prev) in E; [| now symmetry].
      apply chord_at_match in E. congruence. }
    rewrite spans_literal by assumption. f_equal. apply IH; [| reflexivity].
    intros tok Hin. apply G. now right.
  - intros prev tok rest Hne H IH G prev' Ep.
    rewrite out_chord by assumption. rewrite (spans_chord prev tok rest Hne H) in G |- *.
    cbn [map span_map].
    destruct (G tok (or_introl eq_refl)) as [G1 G2].
    destruct (chord_at_view _ _ _ H) as [Hp V].
    pose proof (rewritten_view prev rest tok V G1 G2) as V2.
    destruct (token_chars rest tok V) as [[T1 T2] [T3 T4]].
    rewrite spans_chord.
    + f_equal. apply IH.
      * intros t Hin. apply G. now right.
      * rewrite (last_token_char _ _ T3 T4), (last_token_char _ _ T1 T2). now rewrite G2.
    + assumption.
    + apply view_chord_at; [congruence | assumption].
Qed.

End Pass.

(** ** There and back *)

Lemma list_index_nth (j : Z) (x : str) :
  (0 <= j < 12)%Z -> nth_error NOTES (Z.to_nat j) = Some x ->
  list_index NOTES x = Ok j.
Proof.
  intros H.
  assert (E : exists k, (k < 12)%nat /\ j = Z.of_nat k).
  { exists (Z.to_nat j). split; lia. }
  destruct E as (k & Hk & ->). rewrite Nat2Z.id.
  do 12 (destruct k as [|k]; [intros F; injection F as <-; reflexivity |]).
  lia.
Qed.

Lemma shifted_back (n m : Z) (root : str) :
  ((n + m) mod 12 = 0)%Z -> shifted m (shifted n root) = root.
Proof.
  intros H.
  destruct (str_in root NOTES) eqn:N.
  2: { unfold shifted. destruct (list_index_absent root N) as (e & E).
       now rewrite !E. }
  apply str_in_In in N. destruct (list_index_NOTES root N) as (i & Ei & Ri & Ni).
  assert (Rj : (0 <= (i + n) mod 12 < 12)%Z) by (apply Z.mod_pos_bound; lia).
  destruct (list_get_NOTES _ Rj) as (x & Ex & Nx & _).
  assert (Sx : shifted n root = x) by (unfold shifted; now rewrite Ei, Ex).
  rewrite Sx. pose proof (list_index_nth _ x Rj Nx) as Ix.
  assert (Rk : (((i + n) mod 12 + m) mod 12 = i)%Z).
  { rewrite Z.add_mod_idemp_l by lia. rewrite <- Z.add_assoc.
    rewrite Z.add_mod by lia. rewrite H, Z.add_0_r, Z.mod_mod by lia.
    apply Z.mod_small. lia. }
  unfold shifted. rewrite Ix, Rk.
  destruct (list_get_NOTES i Ri) as (y & -> & Ny & _). congruence.
Qed.

Lemma root_of_prefix (root u : str) :
  root_of (root ++ u) = Some root -> root_of root = Some root.
Proof.
  intros R. destruct root as [|x [|y root]]; simpl in *.
  - exfalso. destruct u as [|x [|y u]]; simpl in R; try discriminate;
      destruct (is_AG x); try discriminate; destruct (is_sharp_b y); discriminate.
  - destruct (is_AG x); [reflexivity | discriminate].
  - assumption.
Qed.

(** A chord token without a flat spelling comes back from a pass and the
    pass of the opposite interval. *)
Lemma rewritten_back (n m : Z) (rest tok : str) :
  ((n + m) mod 12 = 0)%Z -> chord_view rest tok -> flat_free tok = true ->
  rewritten m (rewritten n tok) = tok.
Proof.
  intros H V F.
  destruct (transpose_chord_token rest tok n V) as (root & u & -> & R & Hq & E).
  unfold rewritten at 2. rewrite E. clear E.
  rewrite (flat_free_root root u Hq F).
  pose proof (root_of_prefix root u R) as R0.
  assert (K : root_of (shifted n root) = Some (shifted n root) /\
              normalize_chord (shifted n root) = shifted n root).
  { destruct (shifted_cases n root) as [-> | K].
    - split; [assumption | exact (flat_free_root root u Hq F)].
    - destruct (NOTES_cases _ K) as (y & Hy & [-> | ->]); simpl; rewrite Hy;
        (split; [reflexivity |]); apply normalize_chord_fixed, no_b_flat_free;
        unfold char_in; cbn [existsb]; unfold is_AG, in_range, char_eqb in *;
        destruct (N.eqb_spec 98 y) as [<- |]; try discriminate; reflexivity. }
  destruct K as [K1 K2].
  unfold rewritten.
  rewrite (transpose_chord_shape _ u m (root_before_quality _ u Hq K1) Hq).
  now rewrite K2, shifted_back.
Qed.

Lemma interval_valid (a b : str) (n : Z) :
  interval a b = Ok n -> In a NOTES /\ In b NOTES.
Proof.
  unfold interval. intros H.
  destruct (str_in b NOTES) eqn:Eb.
  2: { destruct (list_index_absent b Eb) as (e & E). rewrite E in H. discriminate. }
  destruct (str_in a NOTES) eqn:Ea.
  2: { destruct (list_index_absent a Ea) as (e & E). rewrite E in H.
       destruct (list_index NOTES b); discriminate. }
  split; now apply str_in_In.
Qed.

Lemma interval_opposite (a b : str) (n m : Z) :
  interval a b = Ok n -> interval b a = Ok m -> ((n + m) mod 12 = 0)%Z.
Proof.
  intros Hn Hm. destruct (interval_valid a b n Hn) as [Ha Hb].
  destruct (interval_ok a b Ha Hb) as (ia & ib & Ea & Eb & E).
  unfold interval in Hn, Hm. rewrite Ea, Eb in Hn, Hm. cbn [bind] in Hn, Hm.
  injection Hn as <-. injection Hm as <-.
  rewrite <- Z.add_mod by lia.
  replace (ib - ia + (ia - ib))%Z with 0%Z by lia. reflexivity.
Qed.

Lemma rewrite_spans_map (g h : str -> str) (l : list span) :
  concat (map (rewrite_span g) (map (span_map h) l))
  = concat (map (rewrite_span (fun tok => g (h tok))) l).
Proof.
  induction l as [|[c | tok] l IH]; cbn [map concat rewrite_span span_map];
    now rewrite ?IH.
Qed.

(** C2, as far as the code goes: a transposition followed by the opposite
    one gives back a text whose chord tokens hold no flat spelling and are
    each rewritten by the first pass to a token that ends with a sharp sign
    exactly when the token itself does. *)
Theorem round_trip (text k1 k2 : str) (n : Z) :
  interval (normalize_chord k1) (normalize_chord k2) = Ok n ->
  (forall tok, In tok (chord_tokens text) ->
     flat_free tok = true /\ ends_sharp (rewritten n tok) = ends_sharp tok) ->
  exists mid,
    transpose_song text k1 k2 = Ok mid /\ transpose_song mid k2 k1 = Ok text.
Proof.
  intros En G. destruct (interval_valid _ _ _ En) as [V1 V2].
  destruct (transpose_song_valid text k1 k2 V1 V2) as (n' & En' & E).
  assert (n' = n) by congruence. subst n'.
  eexists. split; [exact E |].
  destruct (transpose_song_valid
              (concat (map (rewrite_span (rewritten n)) (chord_spans text)))
              k2 k1 V2 V1) as (m & Em & E2).
  rewrite E2. f_equal.
  fold (out_from n None text). unfold chord_spans at 1.
  rewrite (second_scan n None text); [| | reflexivity].
  - rewrite rewrite_spans_map, rewrite_spans_same; [apply spans_text |].
    intros tok Hin. apply in_chords in Hin.
    destruct (spans_view None text tok Hin) as (rest & V).
    apply (rewritten_back n m rest); [| assumption |].
    + exact (interval_opposite _ _ _ _ En Em).
    + apply G. now apply in_chords.
  - intros tok Hin. apply G. now apply in_chords.
Qed.

(** * Further properties of the transposition *)

(** ** Moving a root along the scale *)

Lemma shifted_at (n i : Z) (root : str) :
  list_index NOTES root = Ok i -> In root NOTES ->
  In (shifted n root) NOTES /\
  list_index NOTES (shifted n root) = Ok ((i + n) mod 12)%Z.
Proof.
  intros Ei N. destruct (list_index_NOTES root N) as (j & Ej & _).
  assert (j = i) by congruence. subst j.
  assert (Rj : (0 <= (i + n) mod 12 < 12)%Z) by (apply Z.mod_pos_bound; lia).
  destruct (list_get_NOTES _ Rj) as (x & Ex & Nx & Hx).
  unfold shifted. rewrite Ei, Ex. split; [assumption |].
  now apply list_index_nth.
Qed.

Lemma shifted_outside (n : Z) (root : str) :
  ~ In root NOTES -> shifted n root = root.
Proof.
  intros H. unfold shifted.
  destruct (str_in root NOTES) eqn:E; [apply str_in_In in E; contradiction |].
  now destruct (list_index_absent root E) as (e & ->).
Qed.

Lemma shifted_add (a b : Z) (root : str) :
  shifted b (shifted a root) = shifted (a + b) root.
Proof.
  destruct (str_in root NOTES) eqn:N.
  2: { assert (H : ~ In root NOTES)
         by (intros H; apply str_in_In in H; congruence).
       now rewrite (shifted_outside a root H), (shifted_outside b root H),
         (shifted_outside (a + b) root H). }
  apply str_in_In in N. destruct (list_index_NOTES root N) as (i & Ei & Ri & _).
  destruct (shifted_at a i root Ei N) as [Na Ia].
  destruct (shifted_at b _ _ Ia Na) as [Nb Ib].
  destruct (shifted_at (a + b) i root Ei N) as [Nc Ic].
  rewrite Z.add_mod_idemp_l, <- Z.add_assoc in Ib by lia.
  destruct (list_index_NOTES _ Nb) as (j & Ej & Rj & Gj).
  destruct (list_index_NOTES _ Nc) as (k & Ek & Rk & Gk).
  assert (j = k) by congruence. subst k. congruence.
Qed.

Lemma shifted_period (a k : Z) (root : str) :
  shifted (a + 12 * k) root = shifted a root.
Proof.
  unfold shifted. destruct (list_index NOTES root) as [i | e]; [| reflexivity].
  replace (i + (a + 12 * k))%Z with (i + a + k * 12)%Z by lia.
  now rewrite Z.mod_add by lia.
Qed.

Lemma NOTES_root (r : str) :
  In r NOTES -> root_of r = Some r /\ normalize_chord r = r.
Proof.
  intros H. simpl in H.
  repeat (destruct H as [<- | H]; [split; reflexivity |]). contradiction.
Qed.

(** The root written for a chord token is a root again, and normalised. *)
Lemma shifted_root (n : Z) (root u : str) :
  root_of (root ++ u) = Some root ->
  root_of (shifted n (normalize_chord root)) = Some (shifted n (normalize_chord root)) /\
  normalize_chord (shifted n (normalize_chord root)) = shifted n (normalize_chord root).
Proof.
  intros R. destruct (normalize_root root) as (R1 & R2 & _); [left; now exists u |].
  destruct (shifted_cases n (normalize_chord root)) as [-> | K]; [now split |].
  now apply NOTES_root.
Qed.

Lemma token_shape (text tok : str) :
  In tok (chord_tokens text) ->
  exists root u, tok = root ++ u /\ root_of (root ++ u) = Some root /\ quality_seq u.
Proof.
  intros H. apply in_chords in H.
  destruct (spans_view None text tok H) as (rest & V).
  destruct (chord_view_shape rest tok V) as (root & u & -> & R & Hq & _).
  now exists root, u.
Qed.

(** X1: a chord token is moved by the number of semitones along [NOTES]:
    its root, once normalised, goes from its place [i] to the place
    [(i + n) mod 12] and its quality sequence is kept; a token whose root is
    no name of [NOTES] (Cb, Fb, E#, B#) is returned as it is. *)
Theorem chord_moves_by_semitones (text tok : str) (n : Z) :
  In tok (chord_tokens text) ->
  exists root u,
    tok = root ++ u /\ root_of tok = Some root /\ quality_seq u /\
    ((exists i new_root,
        list_index NOTES (normalize_chord root) = Ok i /\
        list_index NOTES new_root = Ok ((i + n) mod 12)%Z /\
        transpose_chord tok n = Ok (new_root ++ u))
     \/ (~ In (normalize_chord root) NOTES /\ transpose_chord tok n = Ok tok)).
Proof.
  intros H. destruct (token_shape text tok H) as (root & u & -> & R & Hq).
  exists root, u. repeat split; auto.
  rewrite (transpose_chord_shape root u n R Hq).
  destruct (str_in (normalize_chord root) NOTES) eqn:N.
  - left. apply str_in_In in N.
    destruct (list_index_NOTES _ N) as (i & Ei & _).
    destruct (shifted_at n i _ Ei N) as [_ Ix].
    exists i, (shifted n (normalize_chord root)). auto.
  - right. assert (K : ~ In (normalize_chord root) NOTES)
      by (intros K; apply str_in_In in K; congruence).
    split; [assumption |]. rewrite (shifted_outside n _ K).
    destruct (normalize_root root) as (_ & _ & [-> | F]);
      [left; now exists u | reflexivity | contradiction].
Qed.

(** X2: on a chord token two transpositions in a row are the transposition
    by the sum of the semitones, and semitones count modulo 12. *)
Theorem transpose_chord_adds (text tok : str) (a b : Z) :
  In tok (chord_tokens text) ->
  (exists mid, transpose_chord tok a = Ok mid /\
               transpose_chord mid b = transpose_chord tok (a + b)) /\
  (forall k, transpose_chord tok (a + 12 * k) = transpose_chord tok a).
Proof.
  intros H. destruct (token_shape text tok H) as (root & u & -> & R & Hq).
  split.
  - eexists. split; [apply (transpose_chord_shape root u a R Hq) |].
    destruct (shifted_root a root u R) as [K1 K2].
    rewrite (transpose_chord_shape _ u b (root_before_quality _ u Hq K1) Hq).
    rewrite (transpose_chord_shape root u (a + b) R Hq).
    now rewrite K2, shifted_add.
  - intros k. rewrite !(transpose_chord_shape root u _ R Hq).
    now rewrite shifted_period.
Qed.

(** X3: the song depends on the two keys through their interval only. *)
Theorem same_interval_same_song (text k1 k2 k1' k2' : str) (n : Z) :
  interval (normalize_chord k1) (normalize_chord k2) = Ok n ->
  interval (normalize_chord k1') (normalize_chord k2') = Ok n ->
  transpose_song text k1 k2 = transpose_song text k1' k2'.
Proof.
  intros E E'.
  destruct (interval_valid _ _ _ E) as [V1 V2].
  destruct (interval_valid _ _ _ E') as [V1' V2'].
  destruct (transpose_song_valid text k1 k2 V1 V2) as (m & Em & ->).
  destruct (transpose_song_valid text k1' k2' V1' V2') as (m' & Em' & ->).
  congruence.
Qed.


Lemma no_letter_no_chord (s : str) :
  forallb (fun c => negb (is_AG c)) s = true ->
  forall prev, chords (scan chord_pattern 0 prev s) = [].
Proof.
  induction s as [|c s IH]; intros H prev; [reflexivity |].
  cbn [forallb] in H. apply andb_true_iff in H as [Hc H].
  apply negb_true_iff in Hc.
  rewrite spans_literal by (apply match_at_chord_none; now right).
  cbn [chords]. now apply IH.
Qed.

(** X5: a text without the capital letters A to G holds no chord token and
    is returned as it is. *)
Theorem text_without_letters_unchanged (text k1 k2 : str) :
  In (normalize_chord k1) NOTES -> In (normalize_chord k2) NOTES ->
  forallb (fun c => negb (is_AG c)) text = true ->
  chord_tokens text = [] /\ transpose_song text k1 k2 = Ok text.
Proof.
  intros V1 V2 H.
  assert (T : chord_tokens text = []) by now apply no_letter_no_chord.
  split; [assumption |].
  destruct (transpose_song_valid text k1 k2 V1 V2) as (n & _ & ->). f_equal.
  rewrite rewrite_spans_same; [apply spans_text |].
  intros tok Hin. unfold chord_tokens in T. rewrite T in Hin. contradiction.
Qed.

(** ** Chord tokens are whole words *)

Lemma scan_whole_words (prev : option char) (s : str) :
  forall l1 tok l2,
    scan chord_pattern 0 prev s = l1 ++ Chord tok :: l2 ->
    word_before (last_char prev (concat (map span_text l1))) = false /\
    (ends_sharp tok = false -> word_after (concat (map span_text l2)) = false).
Proof.
  revert prev s. apply (scan_induction (fun prev s =>
    forall l1 tok l2,
      scan chord_pattern 0 prev s = l1 ++ Chord tok :: l2 ->
      word_before (last_char prev (concat (map span_text l1))) = false /\
      (ends_sharp tok = false -> word_after (concat (map span_text l2)) = false))).
  - intros prev l1 tok l2 E. destruct l1; discriminate.
  - intros prev c s H IH l1 tok l2 E. rewrite (spans_literal prev c s H) in E.
    destruct l1 as [|sp l1]; [discriminate |]. injection E as <- E.
    exact (IH l1 tok l2 E).
  - intros prev t rest Hne H IH l1 tok l2 E.
    rewrite (spans_chord prev t rest Hne H) in E.
    destruct l1 as [|sp l1].
    + injection E as <- <-. destruct (chord_at_view _ _ _ H) as [Hp V].
      split; [exact Hp |]. rewrite spans_text. intros S.
      inversion V; subst; try assumption.
      * discriminate S.
      * reflexivity.
    + injection E as <- E. cbn [map concat span_text]. rewrite last_char_app.
      exact (IH l1 tok l2 E).
Qed.

(** X6: a chord token is a whole word: the character before it, if any, is
    no word character, and unless the token ends with a sharp sign the
    character after it, if any, is no word character either. *)
Theorem chords_are_whole_words (text : str) (l1 l2 : list span) (tok : str) :
  chord_spans text = l1 ++ Chord tok :: l2 ->
  text = concat (map span_text l1) ++ tok ++ concat (map span_text l2) /\
  word_before (last_char None (concat (map span_text l1))) = false /\
  (ends_sharp tok = false -> word_after (concat (map span_text l2)) = false).
Proof.
  intros E. split; [| now apply (scan_whole_words None text)].
  rewrite <- (spans_text None text) at 1. fold (chord_spans text). rewrite E.
  now rewrite map_app, concat_app.
Qed.

(** X7: a letter A to G before a sharp sign that ends a word is matched
    alone and the sign is left in place: a sharp root standing alone is
    transposed as the natural letter, followed by the old sign. *)
Theorem sharp_sign_left_in_place (x : char) (rest k1 k2 : str) (n : Z) :
  is_AG x = true -> word_after rest = false ->
  interval (normalize_chord k1) (normalize_chord k2) = Ok n ->
  chord_spans (x :: 35%N :: rest)
  = Chord [x] :: Literal 35%N :: scan chord_pattern 0 (Some 35%N) rest /\
  transpose_song [x; 35%N] k1 k2 = Ok (shifted n [x] ++ [35%N]).
Proof.
  intros Hx Hw E.
  assert (S : forall r, word_after r = false ->
            chord_spans (x :: 35%N :: r)
            = Chord [x] :: Literal 35%N :: scan chord_pattern 0 (Some 35%N) r).
  { intros r Hr. unfold chord_spans.
    change (x :: 35%N :: r) with ([x] ++ 35%N :: r).
    rewrite (spans_chord None [x] (35%N :: r)); [| discriminate |].
    - f_equal. apply spans_literal, match_at_chord_none. now right.
    - now apply (chord_letter_sharp None x r). }
  split; [now apply S |].
  destruct (interval_valid _ _ _ E) as [V1 V2].
  destruct (transpose_song_valid [x; 35%N] k1 k2 V1 V2) as (m & Em & ->).
  assert (m = n) by congruence. subst m.
  rewrite (S [] eq_refl). cbn [scan map concat rewrite_span app]. f_equal.
  unfold rewritten.
  assert (R : root_of ([x] ++ []) = Some [x]) by (simpl; now rewrite Hx).
  rewrite (transpose_chord_shape [x] [] n R qs_nil : transpose_chord [x] n = _).
  rewrite (normalize_chord_fixed [x]); [now rewrite app_nil_r |].
  apply no_b_flat_free. unfold char_in. cbn [existsb].
  rewrite orb_false_r. apply N.eqb_neq. intros <-. discriminate.
Qed.

(** X8: the match of the chord pattern at a position is the one that
    [chord_at] describes: after a character that is no word character, a
    letter A to G with (1) no sign and a quality sequence up to the end of
    the word, (2) a flat sign and such a sequence, (3) a sharp sign and such
    a sequence, not empty, (4) a sharp sign before a word that is no such
    sequence, the match being the letter and the sign, or (5) a sharp sign
    that ends a word, the match being the letter alone; and no other. *)
Theorem chord_pattern_matches (prev : option char) (s : str) :
  (forall k, match_at chord_pattern prev s = Some k <-> chord_at prev s k) /\
  (match_at chord_pattern prev s = None <-> forall k, ~ chord_at prev s k).
Proof.
  split; [intros k; apply match_at_chord_iff |]. split.
  - intros H k C. apply chord_at_match in C. congruence.
  - intros H. destruct (match_at chord_pattern prev s) as [k |] eqn:E;
      [| reflexivity].
    apply match_chord_at in E. now destruct (H k).
Qed.

Lemma rewritten_add (a b : Z) (rest tok : str) :
  chord_view rest tok -> rewritten b (rewritten a tok) = rewritten (a + b) tok.
Proof.
  intros V. destruct (chord_view_shape rest tok V) as (root & u & -> & R & Hq & _).
  unfold rewritten. rewrite (transpose_chord_shape root u a R Hq).
  destruct (shifted_root a root u R) as [K1 K2].
  rewrite (transpose_chord_shape _ u b (root_before_quality _ u Hq K1) Hq).
  rewrite (transpose_chord_shape root u (a + b) R Hq).
  now rewrite K2, shifted_add.
Qed.

Lemma shifted_mod (a b : Z) (root : str) :
  (a mod 12 = b mod 12)%Z -> shifted a root = shifted b root.
Proof.
  intros H. unfold shifted.
  destruct (list_index NOTES root) as [i | e]; [| reflexivity].
  rewrite (Z.add_mod i a), (Z.add_mod i b), H by lia. reflexivity.
Qed.

Lemma rewritten_mod (a b : Z) (rest tok : str) :
  (a mod 12 = b mod 12)%Z -> chord_view rest tok -> rewritten a tok = rewritten b tok.
Proof.
  intros H V. destruct (chord_view_shape rest tok V) as (root & u & -> & R & Hq & _).
  unfold rewritten. rewrite !(transpose_chord_shape root u _ R Hq).
  now rewrite (shifted_mod a b _ H).
Qed.

(** X9: transposing from a first key to a second and from the second to a
    third is transposing from the first to the third, for a text whose chord
    tokens hold no flat spelling and are each rewritten by the first pass to
    a token that ends with a sharp sign exactly when the token itself does. *)
Theorem transpositions_compose (text k1 k2 k3 : str) (n : Z) :
  interval (normalize_chord k1) (normalize_chord k2) = Ok n ->
  In (normalize_chord k3) NOTES ->
  (forall tok, In tok (chord_tokens text) ->
     flat_free tok = true /\ ends_sharp (rewritten n tok) = ends_sharp tok) ->
  exists mid,
    transpose_song text k1 k2 = Ok mid /\
    transpose_song mid k2 k3 = transpose_song text k1 k3.
Proof.
  intros En V3 G. destruct (interval_valid _ _ _ En) as [V1 V2].
  destruct (transpose_song_valid text k1 k2 V1 V2) as (n' & En' & E).
  assert (n' = n) by congruence. subst n'.
  eexists. split; [exact E |].
  destruct (transpose_song_valid
              (concat (map (rewrite_span (rewritten n)) (chord_spans text)))
              k2 k3 V2 V3) as (m & Em & ->).
  destruct (transpose_song_valid text k1 k3 V1 V3) as (p & Ep & ->).
  f_equal. fold (out_from n None text). unfold chord_spans at 1.
  rewrite (second_scan n None text); [| | reflexivity].
  2: { intros tok Hin. apply G. now apply in_chords. }
  rewrite rewrite_spans_map. apply rewrite_spans_ext. intros tok Hin.
  destruct (spans_view None text tok Hin) as (rest & V).
  rewrite (rewritten_add n m rest tok V).
  apply (rewritten_mod _ _ rest tok); [| assumption].
  destruct (interval_ok _ _ V1 V2) as (i1 & i2 & E1 & E2 & F12).
  destruct (interval_ok _ _ V2 V3) as (i2' & i3 & E2' & E3 & F23).
  destruct (interval_ok _ _ V1 V3) as (i1' & i3' & E1' & E3' & F13).
  assert (i2' = i2) by congruence. assert (i1' = i1) by congruence.
  assert (i3' = i3) by congruence. subst i2' i1' i3'.
  assert (n = ((i2 - i1) mod 12)%Z) by congruence.
  assert (m = ((i3 - i2) mod 12)%Z) by congruence.
  assert (p = ((i3 - i1) mod 12)%Z) by congruence.
  subst n m p. rewrite <- Z.add_mod, Z.mod_mod by lia. f_equal. lia.
Qed.

(** ** The five replacements as one pass *)

Lemma sharp_letter_app (done : list (char * char)) (a c x : char) :
  sharp_letter (done ++ [(a, c)]) x =
  match sharp_letter done x with
  | Some c' => Some c'
  | None => if char_eqb a x then Some c else None
  end.
Proof.
  induction done as [|ac done IH]; simpl; [reflexivity |].
  now destruct (char_eqb (fst ac) x).
Qed.

Lemma sharpen_step (tbl : list (char * char)) (x y : char) (t : str) :
  sharpen tbl (x :: y :: t) =
  match (if char_eqb y 98%N then sharp_letter tbl x else None) with
  | Some c => c :: 35%N :: sharpen tbl t
  | None => x :: sharpen tbl (y :: t)
  end.
Proof. reflexivity. Qed.

Lemma sharpen_nil (s : str) : sharpen [] s = s.
Proof.
  induction s as [| x | x y t IHt IHyt] using str_pair_ind; try reflexivity.
  rewrite sharpen_step. cbn [sharp_letter]. rewrite IHyt. now destruct (char_eqb y 98%N).
Qed.

Lemma replace_pair_skip (a b : char) (new : str) (x : char) (z : str) :
  x <> a \/ match z with y :: _ => y <> b | [] => True end ->
  replace_from [a; b] new 0 (x :: z) = x :: replace_from [a; b] new 0 z.
Proof.
  intros H. destruct z as [|y z]; [apply replace_pair_one |].
  rewrite replace_pair_step.
  replace (char_eqb a x && char_eqb b y) with false; [reflexivity |].
  symmetry. apply andb_false_iff.
  destruct H as [H | H]; [left | right]; apply N.eqb_neq; congruence.
Qed.

Section OnePass.

(** The spellings already replaced, and the one replaced next. *)
Variable done : list (char * char).
Variables a c : char.
Hypothesis done_sharp : forall x c', sharp_letter done x = Some c' -> c' <> 98%N.
Hypothesis done_b : sharp_letter done 98%N = None.
Hypothesis next_new : sharp_letter done a = None.
Hypothesis next_letter : a <> 35%N.

Lemma sharpen_b (t : str) : sharpen done (98%N :: t) = 98%N :: sharpen done t.
Proof.
  destruct t as [|z t]; [reflexivity |]. rewrite sharpen_step, done_b.
  now destruct (char_eqb z 98%N).
Qed.

Lemma sharpen_head (y : char) (t : str) :
  y <> 98%N ->
  match sharpen done (y :: t) with z :: _ => z <> 98%N | [] => True end.
Proof.
  intros Hy. destruct t as [|z t]; [exact Hy |]. rewrite sharpen_step.
  destruct (if char_eqb z 98%N then sharp_letter done y else None) as [c' |] eqn:E;
    [| exact Hy].
  destruct (char_eqb z 98%N); [| discriminate]. now apply (done_sharp y).
Qed.

(** The replacement of one more spelling, after the pass for the spellings
    already replaced, is the pass for all of them. *)
Lemma replace_after_sharpen (s : str) :
  replace_from [a; 98%N] [c; 35%N] 0 (sharpen done s)
  = sharpen (done ++ [(a, c)]) s.
Proof.
  induction s as [| x | x y t IHt IHyt] using str_pair_ind;
    [reflexivity | apply replace_pair_one |].
  rewrite !sharpen_step, sharp_letter_app.
  destruct (char_eqb y 98%N) eqn:Ey.
  - apply char_eqb_eq in Ey. subst y.
    destruct (sharp_letter done x) as [c' |] eqn:Ex.
    + rewrite replace_pair_skip by (right; discriminate).
      rewrite replace_pair_skip by now left.
      now rewrite IHt.
    + destruct (char_eqb a x) eqn:Ea.
      * apply char_eqb_eq in Ea. subst x.
        rewrite sharpen_b, replace_pair_step, !char_eqb_refl. cbn [andb app].
        now rewrite IHt.
      * rewrite replace_pair_skip.
        -- now rewrite IHyt.
        -- left. intros ->. now rewrite char_eqb_refl in Ea.
  - rewrite replace_pair_skip.
    + now rewrite IHyt.
    + right. apply sharpen_head. intros ->. now rewrite char_eqb_refl in Ey.
Qed.

End OnePass.

Lemma done_sharp_check (done : list (char * char)) :
  forallb (fun ac => negb (char_eqb (snd ac) 98%N)) done = true ->
  forall x c', sharp_letter done x = Some c' -> c' <> 98%N.
Proof.
  induction done as [|ac done IH]; intros H x c' E; simpl in *; [discriminate |].
  apply andb_true_iff in H as [H1 H2].
  destruct (char_eqb (fst ac) x).
  - injection E as <-. apply negb_true_iff, N.eqb_neq in H1. exact H1.
  - now apply (IH H2 x).
Qed.

Lemma normalize_chord_sharpen (s : str) :
  normalize_chord s = sharpen flat_letters s.
Proof.
  rewrite normalize_chord_passes.
  cbv [lit map list_ascii_of_string N_of_ascii N_of_digits N.add N.mul].
  rewrite <- (sharpen_nil s) at 1.
  rewrite (replace_after_sharpen [] 68%N 67%N); cbn [app];
    [| apply done_sharp_check; reflexivity | reflexivity | discriminate].
  rewrite (replace_after_sharpen _ 69%N 68%N); cbn [app];
    [| apply done_sharp_check; reflexivity | reflexivity | discriminate].
  rewrite (replace_after_sharpen _ 71%N 70%N); cbn [app];
    [| apply done_sharp_check; reflexivity | reflexivity | discriminate].
  rewrite (replace_after_sharpen _ 65%N 71%N); cbn [app];
    [| apply done_sharp_check; reflexivity | reflexivity | discriminate].
  rewrite (replace_after_sharpen _ 66%N 65%N); cbn [app];
    [| apply done_sharp_check; reflexivity | reflexivity | discriminate].
  reflexivity.
Qed.

(** X10: [normalize_chord] is one pass over the string that replaces every
    flat spelling (D, E, G, A or B before the sign b) by its sharp name and
    keeps every other character: the order of the five replacements plays no
    part, and the length of the string is kept. *)
Theorem normalize_chord_one_pass (s : str) :
  replacements = map (fun ac => ([fst ac; 98%N], [snd ac; 35%N])) flat_letters /\
  normalize_chord s = sharpen flat_letters s /\
  length (normalize_chord s) = length s.
Proof.
  split; [reflexivity |].
  split; [apply normalize_chord_sharpen | apply normalize_chord_length].
Qed.

(** ** The keys accepted *)

Lemma spelling_valid (k : str) : In k spellings -> In (normalize_chord k) NOTES.
Proof.
  intros H. apply str_in_In. simpl in H.
  repeat (destruct H as [<- | H]; [vm_compute; reflexivity |]).
  contradiction.
Qed.

Lemma valid_spelling (k : str) : In (normalize_chord k) NOTES -> In k spellings.
Proof.
  intros H. pose proof (normalize_chord_length k) as L.
  assert (K : length (normalize_chord k) = 1%nat \/ length (normalize_chord k) = 2%nat).
  { simpl in H.
    repeat (destruct H as [<- | H]; [first [left; reflexivity | right; reflexivity] |]).
    contradiction. }
  rewrite L in K. rewrite normalize_chord_sharpen in H.
  destruct k as [|x [|y [|z k]]]; simpl in K; try (destruct K; discriminate).
  - apply in_or_app. left. exact H.
  - rewrite sharpen_step in H.
    destruct (char_eqb y 98%N) eqn:Ey.
    + apply char_eqb_eq in Ey. subst y.
      destruct (sharp_letter flat_letters x) as [c |] eqn:Ex.
      * apply in_or_app. right. clear H. unfold flat_letters in Ex.
        cbn [sharp_letter fst snd] in Ex.
        repeat match type of Ex with
               | (if char_eqb ?a x then _ else _) = _ =>
                   let E := fresh "E" in
                   destruct (char_eqb a x) eqn:E;
                   [apply char_eqb_eq in E; subst x; apply str_in_In; reflexivity |]
               end.
        discriminate.
      * apply in_or_app. left. exact H.
    + apply in_or_app. left. exact H.
Qed.

(** X11: the keys that [transpose_song] accepts are the seventeen spellings
    and no other: it returns a song exactly when both keys are among the
    twelve names of [NOTES] and the five flat spellings. *)
Theorem accepted_keys (text k1 k2 : str) :
  (In (normalize_chord k1) NOTES <-> In k1 spellings) /\
  ((exists out, transpose_song text k1 k2 = Ok out) <->
   In k1 spellings /\ In k2 spellings).
Proof.
  split; [split; [apply valid_spelling | apply spelling_valid] |]. split.
  - intros (out & E).
    destruct (str_in (normalize_chord k1) NOTES) eqn:E1;
      destruct (str_in (normalize_chord k2) NOTES) eqn:E2;
      try (apply str_in_In in E1, E2; split; now apply valid_spelling);
      rewrite transpose_song_invalid in E; try discriminate.
    + right. intros H. apply str_in_In in H. congruence.
    + left. intros H. apply str_in_In in H. congruence.
    + left. intros H. apply str_in_In in H. congruence.
  - intros [H1 H2]. apply spelling_valid in H1, H2.
    destruct (transpose_song_valid text k1 k2 H1 H2) as (n & _ & E). eauto.
Qed.

(** ** Intervals add up *)

Lemma list_index_inj (a b : str) (i : Z) :
  In a NOTES -> list_index NOTES a = Ok i -> list_index NOTES b = Ok i -> a = b.
Proof.
  intros Ha Ea Eb.
  destruct (list_index_NOTES a Ha) as (j & Ej & _ & Na).
  assert (Hb : In b NOTES).
  { destruct (str_in b NOTES) eqn:F; [now apply str_in_In |].
    destruct (list_index_absent b F). congruence. }
  destruct (list_index_NOTES b Hb) as (k & Ek & _ & Nb). congruence.
Qed.

(** X12: the intervals between names of [NOTES] add up modulo 12, the
    interval back is the opposite one, and the interval is 0 between a name
    and itself only. *)
Theorem intervals_add (a b c : str) :
  In a NOTES -> In b NOTES -> In c NOTES ->
  exists n m p q,
    interval a b = Ok n /\ interval b c = Ok m /\ interval a c = Ok p /\
    interval b a = Ok q /\
    ((n + m) mod 12 = p)%Z /\ ((n + q) mod 12 = 0)%Z /\ (n = 0%Z <-> a = b).
Proof.
  intros Ha Hb Hc.
  destruct (list_index_NOTES a Ha) as (ia & Ea & Ra & _).
  destruct (list_index_NOTES b Hb) as (ib & Eb & Rb & _).
  destruct (list_index_NOTES c Hc) as (ic & Ec & Rc & _).
  unfold interval. rewrite Ea, Eb, Ec. cbn [bind].
  do 4 eexists. do 4 (split; [reflexivity |]).
  split; [| split; [| split]].
  - rewrite <- Z.add_mod by lia. f_equal. lia.
  - rewrite <- Z.add_mod by lia. replace (ib - ia + (ia - ib))%Z with 0%Z by lia.
    reflexivity.
  - intros H. apply (list_index_inj a b ia Ha Ea).
    assert (ib = ia); [| congruence].
    assert (K : ((ib - ia) mod 12 = ib - ia)%Z \/ ((ib - ia) mod 12 = ib - ia + 12)%Z).
    { destruct (Z_lt_le_dec (ib - ia) 0).
      - right. symmetry. apply (Z.mod_unique _ _ (-1)); lia.
      - left. apply Z.mod_small. lia. }
    lia.
  - intros <-. assert (ib = ia) by congruence. subst ib.
    now rewrite Z.sub_diag.
Qed.

(** ** The root pattern *)

(** X14: the root that [re.match] extracts with the root pattern is the
    leading letter A to G of the chord with the sharp or flat sign that
    follows it, if any; there is no match exactly when the chord does not
    begin with a letter A to G; and the chord is the root followed by the
    suffix that [transpose_chord] cuts off. *)
Theorem root_pattern_matches (chord : str) :
  re_match root_pattern chord = root_of chord /\
  (re_match root_pattern chord = None <-> begins_AG chord = false) /\
  (forall root, re_match root_pattern chord = Some root ->
     chord = root ++ skipn (length root) chord /\
     (length root = 1 \/ length root = 2)%nat).
Proof.
  rewrite re_match_root. split; [reflexivity |]. split; [apply root_of_none |].
  intros root H. destruct chord as [|x [|y chord]]; simpl in H; try discriminate;
    destruct (is_AG x); try discriminate.
  - injection H as <-. split; [reflexivity | now left].
  - destruct (is_sharp_b y); injection H as <-; split; try reflexivity;
      [now right | now left].
Qed.

(** ** The endpoint [/api/transpose] *)

Section Endpoint.

Variable db : Type.
Variable b : backend db.

(** X13: the answers of [/api/transpose].  With a key that does not
    normalise to a name of [NOTES] it raises the HTTP error 400 with the
    message of [transpose_song], whatever the token is, and the database is
    not touched.  With two keys that do, it returns the song with the text and
    the keys as they were sent; it does so without touching the database when
    the request has no token or the token does not verify; and its only other
    answers are the errors raised inside the block that stores the song. *)
Theorem transpose_answers (request : TransposeRequest) (w : db) :
  (~ In (normalize_chord (original_key request)) NOTES \/
   ~ In (normalize_chord (target_key request)) NOTES ->
   transpose b request w = (HTTPException 400 invalid_key_msg, w)) /\
  (In (normalize_chord (original_key request)) NOTES ->
   In (normalize_chord (target_key request)) NOTES ->
   exists out,
     transpose_song (song_text request) (original_key request) (target_key request)
     = Ok out /\
     (truthy (token request) = false \/
      truthy (verify_token b (or_default (token request) [])) = false ->
      transpose b request w = (Returned (transpose_body request out), w)) /\
     (forall res w', transpose b request w = (res, w') ->
        res = Returned (transpose_body request out) \/
        exists email ve text,
          verify_token b (or_default (token request) []) = Some email /\
          store_song b request out email w = (Failed ve text, w') /\
          res = transpose_error ve text)).
Proof.
  split.
  - intros H. unfold transpose. now rewrite transpose_song_invalid.
  - intros V1 V2.
    destruct (transpose_song_valid (song_text request) (original_key request)
                (target_key request) V1 V2) as (n & _ & E).
    eexists. split; [exact E |]. unfold transpose. rewrite E. cbv zeta. split.
    + intros [H | H].
      * now rewrite H.
      * destruct (truthy (token request)); [now rewrite H | reflexivity].
    + intros res w' F.
      destruct (truthy (token request)); [| left; congruence].
      destruct (verify_token b (or_default (token request) [])) as [email |] eqn:Ev;
        [| left; cbn [truthy] in F; congruence].
      destruct (truthy (Some email)) eqn:Et; [| left; congruence].
      destruct email as [|c email]; [discriminate |]. cbn [or_default] in F.
      destruct (store_song b request _ (c :: email) w) as [[u | ve text] w1] eqn:Es.
      * left. congruence.
      * right. exists (c :: email), ve, text. injection F as <- <-. auto.
Qed.

End Endpoint.

End Transposition.

(** C10, as the specification states it, fails: a chord that does not begin
    with a letter A to G comes back with its flat spelling replaced. *)
Lemma transpose_chord_changes_non_chord :
  begins_AG (lit "xBb") = false /\
  transpose_chord latin1_alnum (lit "xBb") 0 = Ok (lit "xA#") /\
  lit "xA#" <> lit "xBb".
Proof. repeat split. discriminate. Qed.

(** C2, as the specification states it, fails: a flat spelling does not
    come back from a transposition and the opposite one. *)
Lemma round_trip_loses_flats :
  transpose_song latin1_alnum (lit "Bb") (lit "C") (lit "D") = Ok (lit "C") /\
  transpose_song latin1_alnum (lit "C") (lit "D") (lit "C") = Ok (lit "A#") /\
  lit "A#" <> lit "Bb".
Proof. repeat split. discriminate. Qed.

(** Beside the flats: a bare root that the first pass respells with a sharp
    sign is cut before the sign on the way back, the pattern asking for a
    word boundary after it. *)
Example sharp_root_cut_on_the_way_back :
  transpose_song latin1_alnum (lit "C") (lit "C") (lit "C#") = Ok (lit "C#") /\
  chord_tokens latin1_alnum (lit "C#") = [lit "C"] /\
  transpose_song latin1_alnum (lit "C#") (lit "C#") (lit "C") = Ok (lit "B#").
Proof. repeat split. Qed.

Lemma round_trip_witness :
  exists mid,
    transpose_song latin1_alnum (lit "C  Am7 F#m") (lit "C") (lit "D") = Ok mid /\
    transpose_song latin1_alnum mid (lit "D") (lit "C") = Ok (lit "C  Am7 F#m").
Proof.
  apply (round_trip latin1_alnum (lit "C  Am7 F#m") (lit "C") (lit "D") 2).
  - reflexivity.
  - intros tok Hin. vm_compute in Hin.
    repeat (destruct Hin as [<- | Hin]; [split; reflexivity |]). contradiction.
Defined.

Lemma normalize_key_spec_witness :
  In (normalize_chord (lit "Bb")) NOTES /\
  transpose_song latin1_alnum (lit "text") (lit "H") (lit "C")
  = Raise (ValueError invalid_key_msg).
Proof.
  destruct (normalize_key_spec latin1_alnum) as (H1 & _ & H3). split.
  - apply H1. apply in_or_app. right. simpl. auto 10.
  - apply H3. left. intros H. apply str_in_In in H. discriminate.
Defined.

Lemma interval_spec_witness :
  exists ia ib,
    list_index NOTES (lit "D") = Ok ia /\ list_index NOTES (lit "A#") = Ok ib /\
    interval (lit "D") (lit "A#") = Ok ((ib - ia) mod 12)%Z /\
    (0 <= (ib - ia) mod 12 <= 11)%Z /\
    interval (lit "D") (lit "D") = Ok 0%Z.
Proof. apply interval_spec; apply str_in_In; reflexivity. Defined.

(** C1, as the specification states it, fails: from C to C the flat
    spellings of the text come back as sharps. *)
Lemma zero_interval_changes_flats :
  transpose_song latin1_alnum (lit "Bb7 Eb") (lit "C") (lit "C") = Ok (lit "A#7 D#") /\
  lit "A#7 D#" <> lit "Bb7 Eb".
Proof. split; [reflexivity | discriminate]. Qed.

Lemma zero_interval_normalizes_witness :
  transpose_song latin1_alnum (lit "Bb7 Eb") (lit "C") (lit "C") = Ok (lit "A#7 D#") /\
  transpose_song latin1_alnum (lit "Am7 F#m") (lit "Eb") (lit "Eb") = Ok (lit "Am7 F#m").
Proof.
  split.
  - apply (zero_interval_normalizes latin1_alnum (lit "Bb7 Eb") (lit "C")).
    apply str_in_In. reflexivity.
  - apply (zero_interval_normalizes latin1_alnum (lit "Am7 F#m") (lit "Eb")).
    + apply str_in_In. reflexivity.
    + intros tok Hin. vm_compute in Hin.
      repeat (destruct Hin as [<- | Hin]; [reflexivity |]). contradiction.
Defined.

Lemma structure_preserved_witness :
  count_occ N.eq_dec (lit "D  Bm") 10%N = count_occ N.eq_dec (lit "C  Am") 10%N /\
  word_count (lit "D  Bm") = word_count (lit "C  Am").
Proof.
  destruct (structure_preserved latin1_alnum (lit "C  Am") (lit "C") (lit "D")
              (lit "D  Bm") eq_refl) as (H1 & _ & H2 & _).
  split; assumption.
Defined.

(** C7, as the specification states it, fails: the error is the same value
    when the original key is the wrong one and when the target key is, and
    it does not hold the spelling. *)
Lemma error_does_not_name_key :
  transpose_song latin1_alnum (lit "text") (lit "H") (lit "C")
  = Raise (ValueError invalid_key_msg) /\
  transpose_song latin1_alnum (lit "text") (lit "C") (lit "H")
  = Raise (ValueError invalid_key_msg) /\
  char_in 72%N invalid_key_msg = false.
Proof. repeat split. Qed.

Lemma transpose_song_error_witness :
  transpose_song latin1_alnum (lit "text") (lit "H") (lit "C")
  = Raise (ValueError invalid_key_msg) /\
  transpose_song latin1_alnum (lit "other text") (lit "H") (lit "C")
  = Raise (ValueError invalid_key_msg).
Proof.
  destruct (transpose_song_error latin1_alnum (lit "text") (lit "H") (lit "C")
              (ValueError invalid_key_msg)) as [[_ H1] H2].
  assert (E : transpose_song latin1_alnum (lit "text") (lit "H") (lit "C")
              = Raise (ValueError invalid_key_msg)).
  { apply H1. split; [reflexivity |]. left. intros H.
    apply str_in_In in H. discriminate. }
  split; [exact E | exact (H2 E (lit "other text"))].
Defined.

Lemma transpose_song_total_witness :
  exists out n,
    transpose_song latin1_alnum (lit "la la la") (lit "Bb") (lit "C") = Ok out /\
    out = concat (map (rewrite_span (rewritten latin1_alnum n))
                      (chord_spans latin1_alnum (lit "la la la"))) /\
    lit "la la la" = concat (map span_text (chord_spans latin1_alnum (lit "la la la"))) /\
    (chord_tokens latin1_alnum (lit "la la la") = [] -> out = lit "la la la").
Proof.
  apply (transpose_song_total latin1_alnum (lit "la la la") (lit "Bb") (lit "C"));
    apply str_in_In; reflexivity.
Defined.

Lemma transpose_chord_total_witness :
  transpose_chord latin1_alnum (lit "  ") 5 = Ok (lit "  ") /\
  transpose_chord latin1_alnum (lit "xBb") 5 = Ok (lit "xA#") /\
  transpose_chord latin1_alnum (lit "E#7") 5 = Ok (lit "E#7") /\
  normalize_chord (lit "Am7") = lit "Am7".
Proof.
  destruct (transpose_chord_total latin1_alnum (lit "  ") 5) as (_ & H1 & _).
  destruct (transpose_chord_total latin1_alnum (lit "xBb") 5) as (_ & _ & H2 & _).
  destruct (transpose_chord_total latin1_alnum (lit "E#7") 5) as (_ & _ & _ & H3 & _).
  destruct (transpose_chord_total latin1_alnum (lit "Am7") 5) as (_ & _ & _ & _ & H4).
  split; [apply H1; reflexivity |].
  split; [apply H2; reflexivity |].
  split; [apply (H3 (lit "E#")); [reflexivity |] |].
  - intros H. apply str_in_In in H. discriminate.
  - apply H4. reflexivity.
Defined.

(** * The further properties at concrete texts *)

Lemma chord_moves_by_semitones_witness :
  In (lit "Am7") (chord_tokens latin1_alnum (lit "Am7 D")) /\
  exists root u, lit "Am7" = root ++ u /\ root_of (lit "Am7") = Some root /\
                 quality_seq u.
Proof.
  assert (H : In (lit "Am7") (chord_tokens latin1_alnum (lit "Am7 D")))
    by (apply str_in_In; reflexivity).
  split; [exact H |].
  destruct (chord_moves_by_semitones latin1_alnum _ _ 2 H)
    as (root & u & E1 & E2 & E3 & _).
  eauto.
Defined.

Lemma transpose_chord_adds_witness :
  exists mid,
    transpose_chord latin1_alnum (lit "Bbm7") 2 = Ok mid /\
    transpose_chord latin1_alnum mid 3 = transpose_chord latin1_alnum (lit "Bbm7") (2 + 3).
Proof.
  apply (transpose_chord_adds latin1_alnum (lit "x Bbm7") (lit "Bbm7") 2 3).
  apply str_in_In. reflexivity.
Defined.

Lemma same_interval_same_song_witness :
  transpose_song latin1_alnum (lit "Am7 D") (lit "C") (lit "D")
  = transpose_song latin1_alnum (lit "Am7 D") (lit "G") (lit "A").
Proof.
  apply (same_interval_same_song latin1_alnum (lit "Am7 D") (lit "C") (lit "D")
           (lit "G") (lit "A") 2); reflexivity.
Defined.


Lemma text_without_letters_unchanged_witness :
  chord_tokens latin1_alnum (lit "la la, oh") = [] /\
  transpose_song latin1_alnum (lit "la la, oh") (lit "Eb") (lit "F#") = Ok (lit "la la, oh").
Proof.
  apply (text_without_letters_unchanged latin1_alnum (lit "la la, oh") (lit "Eb") (lit "F#"));
    [apply str_in_In; reflexivity | apply str_in_In; reflexivity | reflexivity].
Defined.

Lemma chords_are_whole_words_witness :
  word_before latin1_alnum (last_char None (lit "x ")) = false /\
  word_after latin1_alnum (lit " y") = false.
Proof.
  destruct (chords_are_whole_words latin1_alnum (lit "x Am y")
              [Literal 120%N; Literal 32%N] [Literal 32%N; Literal 121%N] (lit "Am")
              eq_refl) as (_ & H1 & H2).
  split; [exact H1 | exact (H2 eq_refl)].
Defined.

Lemma sharp_sign_left_in_place_witness :
  transpose_song latin1_alnum (lit "F#") (lit "C") (lit "D") = Ok (lit "G#") /\
  chord_tokens latin1_alnum (lit "F# x") = [lit "F"].
Proof.
  destruct (sharp_sign_left_in_place latin1_alnum 70%N (lit " x") (lit "C") (lit "D") 2
              eq_refl eq_refl eq_refl) as [H1 H2].
  split; [exact H2 |].
  unfold chord_tokens. change (lit "F# x") with (70%N :: 35%N :: lit " x").
  rewrite H1. reflexivity.
Defined.

Lemma chord_pattern_matches_witness :
  chord_at latin1_alnum None (lit "Am7 D") 3.
Proof.
  apply (chord_pattern_matches latin1_alnum None (lit "Am7 D")). reflexivity.
Defined.

Lemma transpositions_compose_witness :
  exists mid,
    transpose_song latin1_alnum (lit "C  Am7 F#m") (lit "C") (lit "D") = Ok mid /\
    transpose_song latin1_alnum mid (lit "D") (lit "E")
    = transpose_song latin1_alnum (lit "C  Am7 F#m") (lit "C") (lit "E").
Proof.
  apply (transpositions_compose latin1_alnum (lit "C  Am7 F#m")
           (lit "C") (lit "D") (lit "E") 2).
  - reflexivity.
  - apply str_in_In. reflexivity.
  - intros tok Hin. vm_compute in Hin.
    repeat (destruct Hin as [<- | Hin]; [split; reflexivity |]). contradiction.
Defined.

Lemma accepted_keys_witness :
  exists out, transpose_song latin1_alnum (lit "Am") (lit "Bb") (lit "C") = Ok out.
Proof.
  apply (accepted_keys latin1_alnum (lit "Am") (lit "Bb") (lit "C")).
  split; apply str_in_In; reflexivity.
Defined.

Lemma intervals_add_witness :
  exists n m p q,
    interval (lit "A") (lit "C") = Ok n /\ interval (lit "C") (lit "E") = Ok m /\
    interval (lit "A") (lit "E") = Ok p /\ interval (lit "C") (lit "A") = Ok q /\
    ((n + m) mod 12 = p)%Z /\ ((n + q) mod 12 = 0)%Z /\ (n = 0%Z <-> lit "A" = lit "C").
Proof.
  apply (intervals_add (lit "A") (lit "C") (lit "E")); apply str_in_In; reflexivity.
Defined.

Lemma transpose_answers_witness :
  transpose latin1_alnum no_accounts
    {| song_text := lit "Am7 D"; original_key := lit "H"; target_key := lit "C";
       song_title := None; artist := None; token := Some (lit "abc") |} tt
  = (HTTPException 400 invalid_key_msg, tt).
Proof.
  apply (transpose_answers latin1_alnum unit no_accounts).
  left. intros H. apply str_in_In in H. discriminate.
Defined.

Lemma root_pattern_matches_witness :
  lit "F#m7" = lit "F#" ++ skipn (length (lit "F#")) (lit "F#m7").
Proof.
  apply (root_pattern_matches latin1_alnum (lit "F#m7")). reflexivity.
Defined.
